(** * Engineering paper summarizer: section detection and relevance filtering

    A shallow embedding of the section pipeline of [engpapersumm]:

    - [utils/text.py]: [sanitize_filename], [chunk_text];
    - [extractors/pdf.py]: [extract_text_and_title];
    - [extractors/section.py]: [extract_abstract], [detect_sections];
    - [processors/topic.py]: [compute_topic_similarity],
      [filter_irrelevant_sections];
    - [processors/coherence.py]: [ensure_content_coherence];
    - [processors/validation.py]: [validate_content_against_title];
    - [summarizer.py]: the selection of the sections in
      [_hierarchical_summarize].

    Conventions of the embedding.

    - A Python [str] is a [list ascii]; the character classes and the case
      mappings are those of ASCII text.
    - A Python [float] is a finite IEEE 754 double, held as the rational
      ([Q]) it stands for; an arithmetic operation on floats gives the
      double nearest to the exact result ([Float.rnd]), and a comparison
      compares the values.  Infinities and NaN are outside the model.
    - The section dictionaries that the processors annotate in place live in
      a store ([loc -> section]); a Python list of sections is a list of
      locations, so that two entries of a list may be the same object.
    - The libraries the code calls are inputs of the model: the TF-IDF
      vectoriser with its cosine similarity, and the chat client.  The
      regular expressions are run by a small backtracking matcher over the
      parsed pattern. *)

From Stdlib Require Import ZArith QArith Qround Lqa Ascii String DecimalString.
From stdpp Require Import base list functions sorting.

Local Open Scope nat_scope.

(** ** Python strings *)

Module Py.

Definition str := list ascii.

(** A string literal. *)
Definition s (x : string) : str := list_ascii_of_string x.

Definition code (c : ascii) : N := N_of_ascii c.

Definition between (lo hi : N) (c : ascii) : bool :=
  (lo <=? code c)%N && (code c <=? hi)%N.

Definition is_digit : ascii -> bool := between 48 57.
Definition is_upper : ascii -> bool := between 65 90.
Definition is_lower : ascii -> bool := between 97 122.

(** [str.isspace] on ASCII: tab, line feed, vertical tab, form feed,
    carriage return, the four separators 28..31 and the space. *)
Definition is_space (c : ascii) : bool :=
  between 9 13 c || between 28 32 c.

Definition lower (c : ascii) : ascii :=
  if is_upper c then ascii_of_N (code c + 32) else c.
Definition upper (c : ascii) : ascii :=
  if is_lower c then ascii_of_N (code c - 32) else c.

Definition nl : ascii := ascii_of_N 10.

(** [x[a:b]] for indices that are not negative. *)
Definition slice (a b : nat) (x : str) : str := take (b - a) (drop a x).

(** [x[a:]] *)
Definition slice_from (a : nat) (x : str) : str := drop a x.

(** [x.lstrip()], [x.rstrip()], [x.strip()] *)
Fixpoint lstrip (x : str) : str :=
  match x with
  | c :: t => if is_space c then lstrip t else x
  | [] => []
  end.

Definition rstrip (x : str) : str := rev (lstrip (rev x)).

Definition strip (x : str) : str := rstrip (lstrip x).

(** [x.lower()] *)
Definition lower_str (x : str) : str := map lower x.

(** [x.capitalize()] *)
Definition capitalize (x : str) : str :=
  match x with
  | c :: t => upper c :: map lower t
  | [] => []
  end.

(** [x * n] for an integer [n]: no copy at all when [n <= 0]. *)
Fixpoint repeat_nat (x : str) (n : nat) : str :=
  match n with
  | O => []
  | S k => x ++ repeat_nat x k
  end.

Definition mul (x : str) (n : Z) : str := repeat_nat x (Z.to_nat n).

(** [sep.join(xs)] *)
Fixpoint join (sep : str) (xs : list str) : str :=
  match xs with
  | [] => []
  | [x] => x
  | x :: rest => x ++ sep ++ join sep rest
  end.

(** [x.split("\n\n")]: the pieces between the occurrences of two
    consecutive line feeds, found from the left and not overlapping. *)
Fixpoint split_blank (x : str) : list str :=
  match x with
  | [] => [[]]
  | c :: t =>
      match t with
      | d :: r =>
          if Ascii.eqb c nl && Ascii.eqb d nl then [] :: split_blank r
          else match split_blank t with
               | p :: ps => (c :: p) :: ps
               | [] => [[c]]
               end
      | [] => [[c]]
      end
  end.

(** [str(n)] for a natural number. *)
Definition of_nat (n : nat) : str := s (NilZero.string_of_uint (Nat.to_uint n)).

(** [int(n * 0.8)], [int(n * 0.25)] and [int(n * 0.75)] for a length [n]:
    the double nearest to the product lies within [n * 2^-52] of the exact
    product, whose fractional part is 0 or at least 1/5, so that the
    truncation is the integer quotient. *)
Definition int_mul_080 (n : nat) : nat := n * 4 / 5.
Definition int_mul_025 (n : nat) : nat := n / 4.
Definition int_mul_075 (n : nat) : nat := n * 3 / 4.

(** [int(q)]: truncation towards zero. *)
Definition int_of (q : Q) : Z := Z.quot (Qnum q) (Z.pos (Qden q)).

(** [round(q)]: to the nearest integer, a half going to the even one. *)
Definition round (q : Q) : Z :=
  let f := Qfloor q in
  let twice := (Qfloor (q * 2) - 2 * f)%Z in
  if (twice =? 0)%Z then f
  else if Qeq_bool (q * 2) (inject_Z (2 * f + 1)) then
         (if Z.even f then f else f + 1)%Z
       else (f + 1)%Z.

End Py.

(** ** Python floats

    A finite double is the rational it stands for.  IEEE 754 defines the
    sum, the product and the quotient of two doubles, the double of an
    integer and the double of a decimal numeral ([float("0.3")], the
    literal [0.3]) as the exact result rounded to the nearest double, a
    tie going to the double with the even mantissa: [rnd] is that
    rounding, on doubles with 53 bits of mantissa and the least exponent
    [-1074] of the subnormal ones.  A result beyond the largest double,
    where the machine gives an infinity, is outside the model. *)

Module Float.
Local Open Scope Z_scope.

(** [num / (den * 2^e)], as a numerator and a denominator. *)
Definition scaled (num : Z) (den : positive) (e : Z) : Z * Z :=
  if 0 <=? e then (num, Z.pos den * 2 ^ e) else (num * 2 ^ (- e), Z.pos den).

(** The integer nearest to [a / b], the even one of two that are as
    near. *)
Definition nearest_even (a b : Z) : Z :=
  let q := a / b in
  match 2 * (a mod b) ?= b with
  | Lt => q
  | Gt => q + 1
  | Eq => if Z.even q then q else q + 1
  end.

(** The exponent of the last place of the doubles around [a / d], for
    [a] positive: [floor (log2 (a / d)) - 52], and [-1074] at least. *)
Definition ulp_exponent (a : Z) (d : positive) : Z :=
  let l := Z.log2 a - Z.log2 (Z.pos d) in
  let '(n1, d1) := scaled a d l in
  Z.max ((if n1 <? d1 then l - 1 else l) - 52) (-1074).

(** The double nearest to [q]. *)
Definition rnd (q : Q) : Q :=
  let a := Z.abs (Qnum q) in
  if a =? 0 then 0%Q
  else
    let e := ulp_exponent a (Qden q) in
    let '(n1, d1) := scaled a (Qden q) e in
    let m := Z.sgn (Qnum q) * nearest_even n1 d1 in
    Qred (if 0 <=? e then inject_Z (m * 2 ^ e) else m # Z.to_pos (2 ^ (- e))).

(** [a + b], [a * b] and [a / b] on floats *)
Definition add (a b : Q) : Q := rnd (a + b).
Definition mul (a b : Q) : Q := rnd (a * b).
Definition div (a b : Q) : Q := rnd (a / b).

(** [float(n)] for an integer [n], as the arithmetic does with an [int]
    operand. *)
Definition of_Z (n : Z) : Q := rnd (inject_Z n).
Definition of_nat (n : nat) : Q := of_Z (Z.of_nat n).

End Float.

(** ** Regular expressions

    The fragment of Python's [re] that the patterns of [section.py] use, on
    parsed patterns, with the matcher's backtracking order: alternatives
    from the left, greedy repetition the longest first, lazy repetition the
    shortest first. *)

Module Re.
Import Py.

Inductive regex : Type :=
| Empty                               (** [(?:)] *)
| Char (c : ascii)                    (** a literal character *)
| Class (p : ascii -> bool)           (** [\d], [\s], [[A-Z]], [.] *)
| Cat (r1 r2 : regex)
| Or (r1 r2 : regex)                  (** [r1|r2] *)
| Star (greedy : bool) (r : regex)    (** [r*] and [r*?] *)
| Group (i : nat) (r : regex)         (** capture group number [i] *)
| Bos                                 (** [^] without MULTILINE *)
| Eos.                                (** [$] without MULTILINE *)

Definition plus (r : regex) : regex := Cat r (Star true r).
Definition opt (r : regex) : regex := Or r Empty.

(** A literal word. *)
Fixpoint lit_chars (x : str) : regex :=
  match x with
  | [] => Empty
  | [c] => Char c
  | c :: t => Cat (Char c) (lit_chars t)
  end.
Definition lit (x : string) : regex := lit_chars (s x).

Definition digit : regex := Class is_digit.
Definition space : regex := Class is_space.
Definition any : regex := Class (fun _ => true).   (** [.] under DOTALL *)
Definition newline : regex := Char nl.

(** [p1|p2|...|pn], the text ['|'.join(patterns)]; no pattern gives the
    empty pattern. *)
Fixpoint alternatives (ps : list regex) : regex :=
  match ps with
  | [] => Empty
  | [p] => p
  | p :: rest => Or p (alternatives rest)
  end.

(** Capture groups inside a pattern are numbered after those of the
    pattern it is pasted into. *)
Fixpoint shift_groups (n : nat) (r : regex) : regex :=
  match r with
  | Cat a b => Cat (shift_groups n a) (shift_groups n b)
  | Or a b => Or (shift_groups n a) (shift_groups n b)
  | Star g a => Star g (shift_groups n a)
  | Group i a => Group (i + n) (shift_groups n a)
  | _ => r
  end.

Record mstate := MState {
  pos : nat;                          (** offset in the text *)
  rest : str;                         (** the text from [pos] on *)
  caps : list (nat * (nat * nat))     (** spans of the groups, latest first *)
}.

Definition span_of (i : nat) (cs : list (nat * (nat * nat))) : option (nat * nat) :=
  snd <$> find (fun e => Nat.eqb (fst e) i) cs.

Definition orelse {A} (a b : option A) : option A :=
  match a with Some _ => a | None => b end.

Definition char_ok (icase : bool) (c x : ascii) : bool :=
  if icase then Ascii.eqb (lower c) (lower x) else Ascii.eqb c x.

Definition class_ok (icase : bool) (p : ascii -> bool) (x : ascii) : bool :=
  if icase then p x || p (lower x) || p (upper x) else p x.

(** The repetition of [body]: one more iteration first when greedy, the
    continuation first when lazy.  An iteration that consumes nothing is
    not taken, so that [fuel], one more than what is left of the text, is
    never used up. *)
Fixpoint star_loop (greedy : bool)
    (body : (mstate -> option mstate) -> mstate -> option mstate)
    (k : mstate -> option mstate) (fuel : nat) (st0 : mstate) : option mstate :=
  match fuel with
  | O => k st0
  | S fuel' =>
      let again :=
        body (fun st1 => if pos st0 <? pos st1 then star_loop greedy body k fuel' st1 else None)
          st0 in
      if greedy then orelse again (k st0) else orelse (k st0) again
  end.

(** [rmatch icase r k st] matches [r] at [st] and hands every way of doing
    so, in the matcher's order, to the continuation [k] until one is
    taken. *)
Fixpoint rmatch (icase : bool) (r : regex)
    (k : mstate -> option mstate) (st : mstate) : option mstate :=
  match r with
  | Empty => k st
  | Char c =>
      match rest st with
      | x :: t => if char_ok icase c x then k (MState (S (pos st)) t (caps st)) else None
      | [] => None
      end
  | Class p =>
      match rest st with
      | x :: t => if class_ok icase p x then k (MState (S (pos st)) t (caps st)) else None
      | [] => None
      end
  | Cat r1 r2 => rmatch icase r1 (rmatch icase r2 k) st
  | Or r1 r2 => orelse (rmatch icase r1 k st) (rmatch icase r2 k st)
  | Star greedy r1 => star_loop greedy (rmatch icase r1) k (S (length (rest st))) st
  | Group i r1 =>
      rmatch icase r1
        (fun st1 => k (MState (pos st1) (rest st1) ((i, (pos st, pos st1)) :: caps st1))) st
  | Bos => if pos st =? 0 then k st else None
  | Eos =>
      match rest st with
      | [] => k st
      | [c] => if Ascii.eqb c nl then k st else None
      | _ => None
      end
  end.

(** A match object: [start()], [end()] and the spans of the groups. *)
Record rmatch_obj := MatchObj {
  m_start : nat;
  m_end : nat;
  m_caps : list (nat * (nat * nat))
}.

Definition match_at (icase : bool) (r : regex) (p : nat) (x : str) : option rmatch_obj :=
  (fun st => MatchObj p (pos st) (caps st)) <$> rmatch icase r Some (MState p x []).

(** [re.search]: the first position, from the left, where the pattern
    matches. *)
Fixpoint search_from (icase : bool) (r : regex) (p : nat) (x : str) : option rmatch_obj :=
  match match_at icase r p x with
  | Some m => Some m
  | None =>
      match x with
      | [] => None
      | _ :: t => search_from icase r (S p) t
      end
  end.

Definition search (icase : bool) (r : regex) (text : str) : option rmatch_obj :=
  search_from icase r 0 text.

(** [re.finditer]: the matches from the left, each search resuming where
    the previous match ended; [skip] counts the positions still inside the
    previous match.  After an empty match the search resumes one position
    further; the header pattern has no empty match. *)
Fixpoint finditer_from (icase : bool) (r : regex) (skip p : nat) (x : str)
    : list rmatch_obj :=
  match skip with
  | S skip' =>
      match x with
      | [] => []
      | _ :: t => finditer_from icase r skip' (S p) t
      end
  | O =>
      match match_at icase r p x with
      | Some m =>
          m :: match x with
               | [] => []
               | _ :: t => finditer_from icase r (m_end m - p - 1) (S p) t
               end
      | None =>
          match x with
          | [] => []
          | _ :: t => finditer_from icase r 0 (S p) t
          end
      end
  end.

Definition finditer (icase : bool) (r : regex) (text : str) : list rmatch_obj :=
  finditer_from icase r 0 0 text.

(** [m.group(0)] and [m.group(i)] *)
Definition group0 (text : str) (m : rmatch_obj) : str :=
  slice (m_start m) (m_end m) text.

Definition group (text : str) (i : nat) (m : rmatch_obj) : str :=
  match span_of i (m_caps m) with
  | Some (a, b) => slice a b text
  | None => []
  end.

End Re.

(** ** Sections *)

(** A section dictionary: ['title'] and ['content'] from the detector, the
    other keys absent until a processor writes them. *)
Record section := MkSection {
  title : Py.str;
  content : Py.str;
  topic_similarity : option Q;
  title_relevance : option Q;
  topic_guidance : option Py.str
}.

Definition new_section (t c : Py.str) : section := MkSection t c None None None.

(** ** utils/text.py *)

Module Text.
Import Py.

Definition blank : str := [nl; nl].

(** One turn of the loop of [chunk_text] over the paragraphs. *)
Definition chunk_step (max_chars : Z) (st : list str * str) (p : str) : list str * str :=
  let '(chunks, current) := st in
  let '(chunks, current) :=
    if (max_chars <? Z.of_nat (length current + length p))%Z
    then (chunks ++ [current], [])
    else (chunks, current) in
  (chunks, current ++ p ++ blank).

Definition chunk_text (text : str) (max_chars : Z) : list str :=
  let '(chunks, current) := foldl (chunk_step max_chars) ([], []) (split_blank text) in
  match current with
  | [] => chunks
  | _ => chunks ++ [current]
  end.

End Text.

(** ** extractors/section.py *)

Module Extract.
Import Py Re Text.

(** The combined header pattern
    [(?: ^ | \n \s* \n ) ( \d+ \. \s* (?: P ) | (?: P ) ) (?: \s* \n )]
    with [P] the patterns joined by [|], used with IGNORECASE. *)
Definition blank_line : regex := Cat newline (Cat (Star true space) newline).
Definition line_end : regex := Cat (Star true space) newline.

Definition combined_pattern (section_patterns : list regex) : regex :=
  let ps := alternatives (map (shift_groups 1) section_patterns) in
  Cat (Or Bos blank_line)
    (Cat (Group 1 (Or (Cat (plus digit) (Cat (Char ".") (Cat (Star true space) ps))) ps))
         line_end).

(** [abstract (?: \s* \n ) ( .*? ) (?: \n \s* \n | \n (?: [A-Z] | \d ) )],
    searched with IGNORECASE and DOTALL. *)
Definition abstract_pattern : regex :=
  Cat (lit "abstract")
    (Cat line_end
       (Cat (Group 1 (Star false any))
            (Or blank_line (Cat newline (Or (Class is_upper) digit))))).

(** [(?: ^ | \n \s* \n ) (?: \d \. \s* )? introduction (?: \s* \n ) ( .*? )
    (?: \n \s* \n \d | $ )], searched with IGNORECASE and DOTALL. *)
Definition intro_pattern : regex :=
  Cat (Or Bos blank_line)
    (Cat (opt (Cat digit (Cat (Char ".") (Star true space))))
       (Cat (lit "introduction")
          (Cat line_end
             (Cat (Group 1 (Star false any))
                  (Or (Cat blank_line digit) Eos))))).

(** [^ \d+ \. \s*], the numbering removed from a title. *)
Definition numbering_pattern : regex :=
  Cat Bos (Cat (plus digit) (Cat (Char ".") (Star true space))).

Definition strip_numbering (t : str) : str :=
  match match_at false numbering_pattern 0 t with
  | Some m => slice_from (m_end m) t
  | None => t
  end.

Definition min_section_size : nat := 1000.

(** The loop that drops the matches too close to the previous kept one. *)
Definition filter_step (st : list rmatch_obj * nat) (m : rmatch_obj)
    : list rmatch_obj * nat :=
  let '(filtered, last_end) := st in
  if (min_section_size <? m_start m - last_end) || (last_end =? 0)
  then (filtered ++ [m], m_end m)
  else (filtered, last_end).

Definition filtered_matches (text : str) (section_patterns : list regex)
    : list rmatch_obj :=
  fst (foldl filter_step ([], 0) (finditer true (combined_pattern section_patterns) text)).

Definition section_title (text : str) (m : rmatch_obj) : str :=
  let t := match group text 1 m with
           | [] => group0 text m
           | g => g
           end in
  capitalize (strip (strip_numbering t)).

(** The loop over the kept matches: the content of a section runs to the
    start of the next kept match, or to the end of the text. *)
Fixpoint primary_loop (text : str) (ms : list rmatch_obj) : list section :=
  match ms with
  | [] => []
  | m :: later =>
      let end_pos := match later with
                     | m' :: _ => m_start m'
                     | [] => length text
                     end in
      let body := strip (slice (m_end m) end_pos text) in
      (if 200 <? length body then [new_section (section_title text m) body] else [])
        ++ primary_loop text later
  end.

Definition primary_tier (text : str) (section_patterns : list regex) : list section :=
  let ms := filtered_matches text section_patterns in
  if 2 <=? length ms then primary_loop text ms else [].

Definition fallback_tier (text : str) : list section :=
  let abstract_match := search true abstract_pattern text in
  let intro_match := search true intro_pattern text in
  let text_len := length text in
  match abstract_match, intro_match with
  | Some am, Some im =>
      [ new_section (s "Abstract") (strip (group text 1 am));
        new_section (s "Introduction") (strip (group text 1 im));
        new_section (s "Main Body") (slice (m_end im) (int_mul_080 text_len) text);
        new_section (s "Conclusion") (slice_from (int_mul_080 text_len) text) ]
  | None, Some im =>
      [ new_section (s "Introduction") (strip (group text 1 im));
        new_section (s "Main Body") (slice (m_end im) (int_mul_080 text_len) text);
        new_section (s "Conclusion") (slice_from (int_mul_080 text_len) text) ]
  | _, None =>
      [ new_section (s "Introduction") (slice 0 (int_mul_025 text_len) text);
        new_section (s "Methods and Results")
          (slice (int_mul_025 text_len) (int_mul_075 text_len) text);
        new_section (s "Discussion and Conclusion")
          (slice_from (int_mul_075 text_len) text) ]
  end.

(** The sections before the sizes are checked. *)
Definition raw_sections (text : str) (section_patterns : list regex) : list section :=
  let sections := primary_tier text section_patterns in
  if length sections <? 2 then fallback_tier text else sections.

Definition part_title (t : str) (i : nat) : str :=
  t ++ s " (Part " ++ of_nat (i + 1) ++ s ")".

(** A section longer than [max_chars] becomes one section per chunk. *)
Definition process_section (max_chars : Z) (sec : section) : list section :=
  if (max_chars <? Z.of_nat (length (content sec)))%Z
  then imap (fun i sub => new_section (part_title (title sec) i) sub)
         (chunk_text (content sec) max_chars)
  else [sec].

Definition detect_sections (text : str) (section_patterns : list regex) (max_chars : Z)
    : list section :=
  concat (map (process_section max_chars) (raw_sections text section_patterns)).

(** [DEFAULT_CONFIG["SECTION_TITLES"]] of [summarizer.py]. *)
Definition SECTION_TITLES : list regex :=
  [ lit "abstract";
    lit "introduction";
    lit "related work";
    lit "background";
    Or (lit "methodology") (Or (lit "methods") (lit "method"));
    Cat (lit "experiment") (opt (Group 1 (Or (lit "s") (lit "al setup"))));
    Or (lit "implementation") (lit "architecture");
    lit "results";
    lit "discussion";
    Group 1 (Or (lit "future work") (lit "limitations"));
    Cat (lit "conclusion") (opt (Group 1 (lit "s")));
    Or (Cat (lit "reference") (opt (Group 1 (lit "s")))) (lit "bibliography") ].

Definition CHUNK_SIZE : Z := 15000.

End Extract.

(** ** [sorted]

    Python's [sorted(xs, key=f)] and [sorted(xs, key=f, reverse=True)] are
    stable: elements with equal keys keep the order of the input, also with
    [reverse=True].  An insertion sort from the right has the same result:
    an element goes in front of the first one it may precede. *)

Module Sorted.
Section By.
Context {A : Type} (before : A -> A -> bool).

Fixpoint insert_by (x : A) (l : list A) : list A :=
  match l with
  | [] => [x]
  | y :: t => if before x y then x :: l else y :: insert_by x t
  end.

Definition sorted_by (l : list A) : list A := foldr insert_by [] l.

(** The order of a stable sort on entries with positions. *)
Definition precedes (p q : nat * A) : Prop :=
  before (snd p) (snd q) = true /\ (before (snd q) (snd p) = false \/ fst p < fst q).

Definition before_snd (p q : nat * A) : bool := before (snd p) (snd q).
End By.

(** The entries of a list with their positions. *)
Fixpoint indexed_from {A} (k : nat) (xs : list A) : list (nat * A) :=
  match xs with
  | [] => []
  | x :: t => (k, x) :: indexed_from (S k) t
  end.

Definition indexed {A} (xs : list A) : list (nat * A) := indexed_from 0 xs.

Definition Qlt_bool (a b : Q) : bool := negb (Qle_bool b a).

(** [sorted(xs, key=key)] *)
Definition sorted {A} (key : A -> Q) : list A -> list A :=
  sorted_by (fun x y => Qle_bool (key x) (key y)).

(** [sorted(xs, key=key, reverse=True)] *)
Definition sorted_reverse {A} (key : A -> Q) : list A -> list A :=
  sorted_by (fun x y => Qle_bool (key y) (key x)).

End Sorted.

(** ** The store of section dictionaries *)

Definition loc := nat.
Definition store := loc -> section.

Definition set_topic_similarity (q : Q) (sec : section) : section :=
  MkSection (title sec) (content sec) (Some q) (title_relevance sec) (topic_guidance sec).

Definition set_title_relevance (q : Q) (sec : section) : section :=
  MkSection (title sec) (content sec) (topic_similarity sec) (Some q) (topic_guidance sec).

(** [x.get('topic_similarity', 0)] and [x.get('title_relevance', 0)] *)
Definition get_topic_similarity (h : store) (l : loc) : Q :=
  default 0%Q (topic_similarity (h l)).

Definition get_title_relevance (h : store) (l : loc) : Q :=
  default 0%Q (title_relevance (h l)).

Definition is_nil {A} (l : list A) : bool :=
  match l with [] => true | _ => false end.

(** ** processors/topic.py *)

Module Topic.
Import Py Sorted.

(** A topic dictionary, as the list of its items in iteration order. *)
Definition topic_dict := list (str * Q).

(** [max(1, int(score * 10))] *)
Definition repetitions (score : Q) : Z :=
  Z.max 1 (int_of (Float.mul score (Float.of_Z 10))).

(** The weighted string of the topics. *)
Definition topic_text (topics : topic_dict) : str :=
  join (s " ") (map (fun item => mul (lower_str (fst item)) (repetitions (snd item))) topics).

(** The synthetic topic document in the words of the specification: each
    term [round(weight * 10)] times, once at least, every copy set off by a
    space. *)
Definition topic_text_as_specified (topics : topic_dict) : str :=
  join (s " ")
    (concat (map (fun item =>
                    replicate (Z.to_nat (Z.max 1 (round (snd item * 10)))) (lower_str (fst item)))
               topics)).

(** The copies of one term, written one after the other. *)
Definition block (item : str * Q) : str :=
  concat (replicate (Z.to_nat (repetitions (snd item))) (lower_str (fst item))).

Section WithVectoriser.
(** [TfidfVectorizer(stop_words='english').fit_transform([a, b])] followed
    by the cosine similarity of the two rows; [None] when it raises. *)
Variable tfidf_cosine : str -> str -> option Q.

Definition compute_topic_similarity (topics : topic_dict) (text : str) : Q :=
  let topic_text := topic_text topics in
  if is_nil text || is_nil topic_text then 0%Q
  else match tfidf_cosine topic_text (lower_str text) with
       | Some similarity => similarity
       | None => 0%Q
       end.

(** One turn of the loop: the section is annotated, and kept when its
    similarity reaches the threshold. *)
Definition filter_step (topics : topic_dict) (similarity_threshold : Q)
    (st : store * list loc) (l : loc) : store * list loc :=
  let '(h, relevant_sections) := st in
  let similarity := compute_topic_similarity topics (content (h l)) in
  let h := <[l := set_topic_similarity similarity (h l)]> h in
  (h, if Qle_bool similarity_threshold similarity
      then relevant_sections ++ [l] else relevant_sections).

Definition filter_pass (h : store) (sections : list loc) (topics : topic_dict)
    (similarity_threshold : Q) : store * list loc :=
  foldl (filter_step topics similarity_threshold) (h, []) sections.

Definition filter_irrelevant_sections (h : store) (sections : list loc)
    (topics : topic_dict) (similarity_threshold : Q) : store * list loc :=
  let '(h, relevant_sections) := filter_pass h sections topics similarity_threshold in
  if (length relevant_sections <? 3) && (3 <=? length sections)
  then (h, take 3 (sorted_reverse (get_topic_similarity h) sections))
  else (h, relevant_sections).

(** The similarity that the loop computes for the section at [l]. *)
Definition similarity_at (topics : topic_dict) (h : store) (l : loc) : Q :=
  compute_topic_similarity topics (content (h l)).

Definition passes (topics : topic_dict) (similarity_threshold : Q) (h : store) (l : loc)
    : Prop :=
  Is_true (Qle_bool similarity_threshold (similarity_at topics h l)).

(** The store after the loop: every section of the list carries its
    similarity, nothing else has changed. *)
Definition annotated (topics : topic_dict) (h : store) (sections : list loc) (l : loc)
    : section :=
  if decide (l ∈ sections) then set_topic_similarity (similarity_at topics h l) (h l)
  else h l.
End WithVectoriser.

End Topic.

(** ** processors/coherence.py *)

Module Coherence.
Import Py Sorted.

(** [sum(l)] for a list of floats: the similarities are NumPy floats,
    which [sum] adds one by one from the left, each addition rounded. *)
Definition Qsum (l : list Q) : Q := foldl Float.add 0%Q l.

Section WithVectoriser.
(** [TfidfVectorizer(stop_words='english').fit_transform(texts)] followed
    by the cosine similarity of rows [i] and [j]; [None] when it raises. *)
Variable tfidf_pairwise : list str -> option (nat -> nat -> Q).

Definition mean_similarity (sim : nat -> nat -> Q) (n i : nat) : Q :=
  let other_indices := filter (fun j => j ≠ i) (seq 0 n) in
  let similarities := map (sim i) other_indices in
  if is_nil similarities then 0%Q
  else Float.div (Qsum similarities) (Float.of_nat (length similarities)).

Definition section_scores (sim : nat -> nat -> Q) (n : nat) : list (nat * Q) :=
  map (fun i => (i, mean_similarity sim n i)) (seq 0 n).

(** [[sections[i] for i in range(len(sections)) if i != outlier_index]] *)
Definition without_index {A} (outlier_index : nat) (sections : list A) : list A :=
  omap (fun i => sections !! i)
    (filter (fun i => i ≠ outlier_index) (seq 0 (length sections))).

Definition ensure_content_coherence (h : store) (sections : list loc) : list loc :=
  if length sections <=? 2 then sections
  else
    let section_texts := map (fun l => content (h l)) sections in
    match tfidf_pairwise section_texts with
    | None => sections
    | Some sim =>
        let sorted_scores := sorted snd (section_scores sim (length sections)) in
        match sorted_scores with
        | (outlier_index, lowest_score) :: (_, second_lowest) :: _ :: _ =>
            if Qlt_bool lowest_score (Float.mul (Float.rnd (3 # 10)) second_lowest)
            then without_index outlier_index sections
            else sections
        | _ => sections
        end
    end.
End WithVectoriser.

End Coherence.

(** ** processors/validation.py *)

Module Validation.
Import Py Re Sorted.

(** What a chat request gives back: an exception anywhere on the way to the
    text of the first choice, or that text. *)
Inductive response : Type :=
| Failed
| Reply (text : str).

Definition system_prompt : str :=
  s "You assess the relevance of research paper sections to the paper's title.".

Definition prompt (paper_title section_title content_sample : str) : str :=
  s "Paper Title: " ++ paper_title ++ [nl] ++
  s "Section Title: " ++ section_title ++ [nl] ++
  s "Section Content Sample: " ++ content_sample ++ [nl] ++
  [nl] ++
  s "On a scale of 0 to 10, how relevant is this section content to the paper title?" ++ [nl] ++
  s "Consider:" ++ [nl] ++
  s "1. Direct topical relevance" ++ [nl] ++
  s "2. Expected content for a section with this title in a paper about this topic" ++ [nl] ++
  s "3. Use of terminology consistent with the paper title" ++ [nl] ++
  [nl] ++
  s "Return ONLY a number from 0 to 10 representing the relevance score." ++ [nl].

(** [\d+ (?: \. \d+ )?] *)
Definition score_pattern : regex :=
  Cat (plus digit) (opt (Cat (Char ".") (plus digit))).

Definition digit_value (c : ascii) : Z := Z.of_N (code c - 48).

Definition decimal_value (x : str) : Z :=
  foldl (fun acc c => (acc * 10 + digit_value c)%Z) 0%Z x.

Fixpoint leading_digits (x : str) : str :=
  match x with
  | c :: t => if is_digit c then c :: leading_digits t else []
  | [] => []
  end.

(** The number that a token of [score_pattern] writes. *)
Definition decimal_of (token : str) : Q :=
  let int_part := leading_digits token in
  match drop (length int_part) token with
  | _ :: frac_part =>
      (inject_Z (decimal_value int_part)
       + inject_Z (decimal_value frac_part) / inject_Z (10 ^ Z.of_nat (length frac_part)))%Q
  | [] => inject_Z (decimal_value int_part)
  end.

(** [float(token)]: the double nearest to that number. *)
Definition float_of (token : str) : Q := Float.rnd (decimal_of token).

(** The score read from the text of a reply, if it holds a number. *)
Definition parse_score (text : str) : option Q :=
  let score_text := strip text in
  (fun m => float_of (group0 score_text m)) <$> search false score_pattern score_text.

Section WithClient.
(** The chat service: its state, and a request made with a model name, a
    system message and a user message. *)
Variable client : Type.
Variable chat : client -> str -> str -> str -> response * client.

Definition request (c : client) (model paper_title : str) (sec : section)
    : response * client :=
  let content_sample := slice 0 1000 (content sec) in
  chat c model system_prompt (prompt paper_title (title sec) content_sample).

(** What the loop does with a section once the reply is there. *)
Definition judge (st : store * list loc) (l : loc) (r : response) : store * list loc :=
  let '(h, validated_sections) := st in
  match r with
  | Failed => (h, validated_sections ++ [l])
  | Reply text =>
      match parse_score text with
      | Some score =>
          let h := <[l := set_title_relevance score (h l)]> h in
          (h, if Qle_bool 6 score then validated_sections ++ [l] else validated_sections)
      | None => (h, validated_sections ++ [l])
      end
  end.

Definition validate_step (model paper_title : str)
    (st : client * (store * list loc)) (l : loc) : client * (store * list loc) :=
  let '(c, (h, validated_sections)) := st in
  let '(r, c) := request c model paper_title (h l) in
  (c, judge (h, validated_sections) l r).

Definition validate_pass (c : client) (paper_title : str) (h : store)
    (sections : list loc) (model : str) : client * (store * list loc) :=
  foldl (validate_step model paper_title) (c, (h, [])) sections.

Definition validate_content_against_title (c : client) (paper_title : str)
    (h : store) (sections : list loc) (model : str) : client * (store * list loc) :=
  let '(c, (h, validated_sections)) := validate_pass c paper_title h sections model in
  if (length validated_sections <? 3) && (3 <=? length sections)
  then (c, (h, take 3 (sorted_reverse (get_title_relevance h) sections)))
  else (c, (h, validated_sections)).

(** The replies the loop receives, section by section. *)
Fixpoint transcript (c : client) (paper_title : str) (h : store)
    (sections : list loc) (model : str) : list response :=
  match sections with
  | [] => []
  | l :: later =>
      let '(r, c') := request c model paper_title (h l) in
      r :: transcript c' paper_title (fst (judge (h, []) l r)) later model
  end.

(** The loop, from any state. *)
Definition pass_from (model paper_title : str) (c : client) (h : store)
    (validated : list loc) (sections : list loc) : client * (store * list loc) :=
  foldl (validate_step model paper_title) (c, (h, validated)) sections.
End WithClient.

(** A reply that gives no score: the request failed, or its text holds no
    number. *)
Definition no_score (r : response) : Prop :=
  match r with
  | Failed => True
  | Reply text => parse_score text = None
  end.

End Validation.

(** ** The notions the statements use *)

Module Props.
Import Py Text.

(** The paragraphs [ps], each closed by a blank line. *)
Definition delimit (ps : list str) : str := concat (map (fun p => p ++ blank) ps).

(** [p] holds no blank line, that is no two consecutive line feeds. *)
Definition no_blank (p : str) : Prop := forall a b, p <> a ++ blank ++ b.

(** A chunk of whole paragraphs: when it holds two paragraphs or more, it
    fits in [max_chars] up to the blank line that closes it. *)
Definition paragraph_chunk (max_chars : Z) (c : str) : Prop :=
  exists ps, c = delimit ps /\ Forall no_blank ps /\
    (2 <= length ps -> (Z.of_nat (length c) - 2 <= max_chars)%Z).

(** A group of paragraphs that the loop put in one chunk. *)
Definition fits (max_chars : Z) (g : list str) : Prop :=
  2 <= length g -> (Z.of_nat (length (delimit g)) - 2 <= max_chars)%Z.

(** The content of a section of the detector's output: within
    [max_chars], or a chunk of whole paragraphs. *)
Definition sized (max_chars : Z) (sec : section) : Prop :=
  (Z.of_nat (length (content sec)) <= max_chars)%Z \/
  paragraph_chunk max_chars (content sec).

(** [(i, x)] comes before [(j, y)] in the ranking by decreasing key, the
    earlier position winning a tie. *)
Definition ranks_before {A} (key : A -> Q) (p q : nat * A) : Prop :=
  (key (snd q) < key (snd p))%Q \/ (key (snd p) == key (snd q))%Q /\ fst p < fst q.

(** [out] is made of the three entries of [xs] that rank first, in the
    order of the ranking. *)
Definition top3_of {A} (key : A -> Q) (xs out : list A) : Prop :=
  exists i1 i2 i3 x1 x2 x3,
    out = [x1; x2; x3] /\
    xs !! i1 = Some x1 /\ xs !! i2 = Some x2 /\ xs !! i3 = Some x3 /\
    ranks_before key (i1, x1) (i2, x2) /\
    ranks_before key (i2, x2) (i3, x3) /\
    forall j y, xs !! j = Some y -> j <> i1 -> j <> i2 -> j <> i3 ->
      ranks_before key (i3, x3) (j, y).

(** Position [i] comes before position [j] in the ranking by increasing
    score, the earlier position winning a tie. *)
Definition ranks_lower (score : nat -> Q) (i j : nat) : Prop :=
  (score i < score j)%Q \/ (score i == score j)%Q /\ i < j.

(** [b] is [term] written [n] times, the copies set off by white space or
    by nothing. *)
Inductive repeats (term : str) : nat -> str -> Prop :=
| repeats_once : repeats term 1 term
| repeats_more n gap b :
    Forall (fun c => is_space c = true) gap ->
    repeats term (S n) b ->
    repeats term (S (S n)) (term ++ gap ++ b).

(** The mean similarity of section [i] to the other sections of [n]: the
    similarities to the sections before it and after it, in the order of
    the list, added up and divided by their number, in floating point. *)
Definition mean_to_others (sim : nat -> nat -> Q) (n i : nat) : Q :=
  Float.div (foldl Float.add 0%Q (map (sim i) (seq 0 i ++ seq (S i) (n - S i))))
    (Float.of_nat (n - 1)).

(** The score that a reply gives, if it gives one. *)
Definition reply_score (r : Validation.response) : option Q :=
  match r with
  | Validation.Failed => None
  | Validation.Reply text => Validation.parse_score text
  end.

(** The test of the validation loop on a reply: a score of 6 or more, or
    no score at all. *)
Definition keeps (r : Validation.response) : bool :=
  match reply_score r with
  | Some score => Qle_bool 6 score
  | None => true
  end.

(** The sections whose reply stands the test, in the order of the list. *)
Definition survivors (sections : list loc) (replies : list Validation.response) : list loc :=
  map fst (filter (fun p => Is_true (keeps (snd p))) (zip sections replies)).

(** The title relevance of a section once the loop is over: the score of
    the last reply for it that gave one; failing that, the relevance it
    came with; failing that, 0. *)
Definition title_score (h : store) (sections : list loc)
    (replies : list Validation.response) (l : loc) : Q :=
  default (default 0%Q (title_relevance (h l)))
    (last (omap (fun p => if decide (fst p = l) then reply_score (snd p) else None)
             (zip sections replies))).

End Props.

(** ** More of [re]: substitution, and a lookahead that closes a pattern *)

Module Sub.
Import Py Re.

(** [re.sub(pattern, repl, text)] for a replacement without group
    references: the text between the matches is kept, [repl] stands for
    each match; [skip] counts the positions still inside the previous
    match.  After an empty match the character is kept and the search
    resumes one position further. *)
Fixpoint sub_from (icase : bool) (r : regex) (repl : str) (skip p : nat) (x : str) : str :=
  match skip with
  | S skip' =>
      match x with
      | [] => []
      | _ :: t => sub_from icase r repl skip' (S p) t
      end
  | O =>
      match match_at icase r p x with
      | Some m =>
          repl ++ match x with
                  | [] => []
                  | c :: t =>
                      if m_end m =? p then c :: sub_from icase r repl 0 (S p) t
                      else sub_from icase r repl (m_end m - p - 1) (S p) t
                  end
      | None =>
          match x with
          | [] => []
          | c :: t => c :: sub_from icase r repl 0 (S p) t
          end
      end
  end.

Definition sub (icase : bool) (r : regex) (repl text : str) : str :=
  sub_from icase r repl 0 0 text.

(** The continuation of a pattern closed by [(?=ahead)]: the match stands
    where [ahead] matches, and takes nothing of it. *)
Definition look_ahead (icase : bool) (ahead : regex) (st : mstate) : option mstate :=
  match rmatch icase ahead Some st with
  | Some _ => Some st
  | None => None
  end.

Definition match_at_ahead (icase : bool) (r ahead : regex) (p : nat) (x : str)
    : option rmatch_obj :=
  (fun st => MatchObj p (pos st) (caps st))
    <$> rmatch icase r (look_ahead icase ahead) (MState p x []).

(** [re.search] for [r(?=ahead)]. *)
Fixpoint search_ahead_from (icase : bool) (r ahead : regex) (p : nat) (x : str)
    : option rmatch_obj :=
  match match_at_ahead icase r ahead p x with
  | Some m => Some m
  | None =>
      match x with
      | [] => None
      | _ :: t => search_ahead_from icase r ahead (S p) t
      end
  end.

Definition search_ahead (icase : bool) (r ahead : regex) (text : str) : option rmatch_obj :=
  search_ahead_from icase r ahead 0 text.

(** Every match of [r] takes a line feed of the text: a syntactic test. *)
Fixpoint needs_nl (r : regex) : bool :=
  match r with
  | Char c => Ascii.eqb c nl
  | Cat r1 r2 => needs_nl r1 || needs_nl r2
  | Or r1 r2 => needs_nl r1 && needs_nl r2
  | Group _ r1 => needs_nl r1
  | _ => false
  end.

End Sub.

(** ** utils/text.py: [sanitize_filename] *)

Module Utils.
Import Py Re Sub.

(** The class of the nine characters replaced: backslash, slash, star,
    question mark, colon, double quote, the angle brackets and bar. *)
Definition invalid_char (c : ascii) : bool :=
  existsb (N.eqb (code c)) [92; 47; 42; 63; 58; 34; 60; 62; 124]%N.

Definition sanitize_filename (name : str) : str :=
  sub false (Class invalid_char) (s "_") name.

(** The name in which every invalid character has become an underscore. *)
Definition underscored (name : str) : str :=
  map (fun c => if invalid_char c then ascii_of_N 95 else c) name.

End Utils.

(** ** extractors/section.py: [extract_abstract] *)

Module Abstract.
Import Py Re Sub Extract.

(** [(?: \n \s* \n | \n (?: [A-Z] | \d ) )], the end of the first three
    patterns. *)
Definition abstract_end : regex :=
  Or blank_line (Cat newline (Or (Class is_upper) digit)).

Definition body : regex := Group 1 (Star false any).

(** [abstract \s* \n+ ( .*? )] and the end. *)
Definition pattern_1 : regex :=
  Cat (lit "abstract") (Cat (Star true space) (Cat (plus newline) (Cat body abstract_end))).

(** [abstract [:\.\s]+ ( .*? )] and the end. *)
Definition punctuation (c : ascii) : bool :=
  Ascii.eqb c (ascii_of_N 58) || Ascii.eqb c (ascii_of_N 46) || is_space c.

Definition pattern_2 : regex :=
  Cat (lit "abstract") (Cat (plus (Class punctuation)) (Cat body abstract_end)).

(** [ABSTRACT \s* ( .*? )] and the end. *)
Definition pattern_3 : regex :=
  Cat (lit "ABSTRACT") (Cat (Star true space) (Cat body abstract_end)).

(** [abstract (?: \s* | : \s* ) ( .*? )], closed by the lookahead
    [(?= \n \s* \n \s* (?: introduction | 1\. ) \s* \n )]. *)
Definition pattern_4 : regex :=
  Cat (lit "abstract")
    (Cat (Or (Star true space) (Cat (Char (ascii_of_N 58)) (Star true space))) body).

Definition ahead_4 : regex :=
  Cat newline
    (Cat (Star true space)
       (Cat newline
          (Cat (Star true space)
             (Cat (Or (lit "introduction") (lit "1."))
                (Cat (Star true space) newline))))).

(** The searches of the loop, in its order; all with [(?i)] and DOTALL. *)
Definition abstract_patterns : list (str -> option rmatch_obj) :=
  [ search true pattern_1; search true pattern_2; search true pattern_3;
    search_ahead true pattern_4 ahead_4 ].

(** [re.sub(r'\s+', ' ', abstract)] *)
Definition collapse_spaces (x : str) : str := sub false (plus space) (s " ") x.

(** The loop over the patterns: the first abstract of more than 50
    characters. *)
Fixpoint first_abstract (text : str) (searches : list (str -> option rmatch_obj))
    : option str :=
  match searches with
  | [] => None
  | find :: later =>
      match find text with
      | Some m =>
          let abstract := collapse_spaces (strip (group text 1 m)) in
          if 50 <? length abstract then Some abstract else first_abstract text later
      | None => first_abstract text later
      end
  end.

(** [text.split('\n\n')[0]] *)
Definition first_paragraph (text : str) : str :=
  match split_blank text with
  | p :: _ => p
  | [] => []
  end.

Definition extract_abstract (text : str) : str :=
  match first_abstract text abstract_patterns with
  | Some abstract => abstract
  | None =>
      let first_para := first_paragraph text in
      if 100 <? length first_para then slice 0 500 first_para else []
  end.

End Abstract.

(** ** extractors/pdf.py: [extract_text_and_title]

    The reader is an input of the model: the title of the metadata, if
    there are metadata and a title in them, the stem of the path and, page
    by page, the text that [extract_text] gives, if any. *)

Module Pdf.
Import Py Re Sub.

(** [\s* \n \s*] *)
Definition line_break : regex := Cat (Star true space) (Cat newline (Star true space)).

(** [re.sub(r"\s*\n\s*", " ", raw)] with [raw = page.extract_text() or ""] *)
Definition clean_page (page : option str) : str :=
  sub false line_break (s " ") (default [] page).

(** [None] stands for the exception that [meta.title] raises when the
    document has no metadata. *)
Definition extract_text_and_title (metadata : option (option str)) (stem : str)
    (pages : list (option str)) : option (str * str) :=
  match metadata with
  | None => None
  | Some meta_title =>
      let title := match meta_title with
                   | Some t => if is_nil t then stem else t
                   | None => stem
                   end in
      Some (join (s " ") (map clean_page pages), title)
  end.

End Pdf.

(** ** summarizer.py *)

Module Summarizer.
Import Py Topic Coherence Validation.

Definition MIN_SIMILARITY : Q := Float.rnd (15 # 100).

Section WithServices.
Variable tfidf_cosine : str -> str -> option Q.
Variable tfidf_pairwise : list str -> option (nat -> nat -> Q).
Variable client : Type.
Variable chat : client -> str -> str -> str -> response * client.

(** Steps 3 to 5 of [_hierarchical_summarize]: the sections that the
    detector found go through the topic filter, the coherence check and
    the validation against the title. *)
Definition select_sections (c : client) (title : str) (h : store) (sections : list loc)
    (topic_dict : topic_dict) (min_similarity : Q) (model : str)
    : client * (store * list loc) :=
  let '(h, relevant_sections) :=
    filter_irrelevant_sections tfidf_cosine h sections topic_dict min_similarity in
  let coherent_sections := ensure_content_coherence tfidf_pairwise h relevant_sections in
  validate_content_against_title client chat c title h coherent_sections model.
End WithServices.

End Summarizer.

(** ** More notions for the statements *)

Module Notions.
Import Py Text Extract.

(** The three sections of the proportional split of a text. *)
Definition proportional (text : str) : list section :=
  [ new_section (s "Introduction") (slice 0 (int_mul_025 (length text)) text);
    new_section (s "Methods and Results")
      (slice (int_mul_025 (length text)) (int_mul_075 (length text)) text);
    new_section (s "Discussion and Conclusion") (slice_from (int_mul_075 (length text)) text) ].

(** A character that is not white space, or is the space. *)
Definition plain_space (c : ascii) : Prop := is_space c = true -> c = ascii_of_N 32.

(** [x] stands in [text] as it is, in one piece. *)
Definition piece_of (x text : str) : Prop := exists a b, text = a ++ x ++ b.

(** The text holds a decimal digit. *)
Definition has_digit (x : str) : bool := existsb is_digit x.

(** The text holds no line feed. *)
Definition no_nl (x : str) : bool := forallb (fun c => negb (Ascii.eqb c nl)) x.

(** What becomes of a section that is one paragraph: itself when it fits,
    and otherwise an empty first part and a second part with everything. *)
Definition unsplit (max_chars : Z) (sec : section) : list section :=
  if (max_chars <? Z.of_nat (length (content sec)))%Z
  then [ new_section (part_title (title sec) 0) [];
         new_section (part_title (title sec) 1) (content sec ++ blank) ]
  else [sec].

End Notions.

(** ** Inputs for the examples *)

Module Examples.
Import Py Re Text Extract Validation.

(** Two pages as [page.extract_text()] gives them; the second has a
    trailing line feed, a third has no text. *)
Definition two_pages : list (option str) :=
  [ Some (s "Title page" ++ [nl] ++ s "first line  " ++ [nl]);
    Some (s "second page" ++ [nl]);
    None ].

Definition filler (n : nat) : str := repeat_nat (s "word ") n.

(** Two headers of the default configuration, more than 1000 characters
    apart, each followed by more than 200 characters. *)
Definition two_headers : str :=
  s "Abstract" ++ [nl] ++ filler 210 ++ [nl; nl] ++ s "1. Introduction" ++ [nl] ++ filler 50.

(** Forty characters without a line feed. *)
Definition one_paragraph : str := repeat_nat (s "a") 40.


(** A store of sections that carry no annotation. *)
Definition plain_store : store := fun _ => new_section (s "Section") (s "body").

(** The same, but for section 0, which comes with a title relevance of 9
    from an earlier validation. *)
Definition stale_store : store :=
  fun l => if l =? 0 then set_title_relevance 9 (plain_store l) else plain_store l.

(** A store where section [l] has a content of [l] characters, and a
    vectoriser whose similarity is one hundredth of the length of the
    text. *)
Definition graded_store : store := fun l => new_section (s "Section") (repeat_nat (s "a") l).

Definition by_length (topic_text text : str) : option Q :=
  Some (Z.of_nat (length text) # 100).

(** Four paragraphs of nine characters, each closed by a blank line. *)
Definition short_paragraphs : str := repeat_nat (s "aaaaaaaaa" ++ [nl; nl]) 4.

(** A chat service that is out of reach: every request fails. *)
Definition unreachable (c : nat) (model system user : str) : response * nat := (Failed, S c).

(** A vectoriser that raises on every pair of texts. *)
Definition raising (topic_text text : str) : option Q := None.

(** A vectoriser that finds nothing in common with the topics. *)
Definition no_overlap (topic_text text : str) : option Q := Some 0%Q.

(** A chat service that answers from a script, one reply per request. *)
Definition scripted (replies : list response) (c : nat) (model system user : str)
    : response * nat :=
  (default Failed (replies !! c), S c).

(** The first request fails; the other sections get low scores. *)
Definition low_scores : list response :=
  [Failed; Reply (s "5"); Reply (s "4"); Reply (s "3")].

(** The first request fails; two of the other sections get high scores. *)
Definition high_scores : list response :=
  [Failed; Reply (s "7"); Reply (s "8"); Reply (s "3")].

(** Pairwise similarities where the first section shares nothing with the
    others, which are alike. *)
Definition first_apart (texts : list str) : option (nat -> nat -> Q) :=
  Some (fun i j => if (i =? 0) || (j =? 0) then 0%Q else 1%Q).

End Examples.

(** * Properties *)

(** ** Floats *)

Module FloatFacts.
Import Float.

Lemma nearest_even_nonneg a b : (0 <= a)%Z -> (0 < b)%Z -> (0 <= nearest_even a b)%Z.
Proof.
  intros Ha Hb. unfold nearest_even. pose proof (Z.div_pos a b Ha Hb).
  destruct (_ ?= _)%Z; [destruct (Z.even _)|..]; lia.
Qed.

Lemma scaled_nonneg a d e n1 d1 :
  (0 <= a)%Z -> scaled a d e = (n1, d1) -> (0 <= n1)%Z /\ (0 < d1)%Z.
Proof.
  intros Ha. unfold scaled. destruct (0 <=? e)%Z eqn:E; intros [= <- <-].
  - apply Z.leb_le in E. split; [done|]. apply Z.mul_pos_pos; [lia|]. by apply Z.pow_pos_nonneg.
  - apply Z.leb_gt in E. split; [|lia]. apply Z.mul_nonneg_nonneg; [done|].
    apply Z.pow_nonneg. lia.
Qed.

(** Rounding keeps the sign: the double nearest to a number that is not
    negative is not negative. *)
Lemma rnd_nonneg q : (0 <= q)%Q -> (0 <= rnd q)%Q.
Proof.
  intros Hq. assert (Hnum : (0 <= Qnum q)%Z) by (unfold Qle in Hq; simpl in Hq; lia).
  unfold rnd. destruct (Z.abs (Qnum q) =? 0)%Z; [done|].
  destruct (scaled _ _ _) as [n1 d1] eqn:Hs.
  apply scaled_nonneg in Hs as [Hn1 Hd1]; [|lia].
  pose proof (nearest_even_nonneg n1 d1 Hn1 Hd1) as Hm.
  rewrite Qred_correct.
  assert (Hsm : (0 <= Z.sgn (Qnum q) * nearest_even n1 d1)%Z).
  { apply Z.mul_nonneg_nonneg; [|done]. by apply Z.sgn_nonneg. }
  destruct (0 <=? _)%Z eqn:E.
  - change 0%Q with (inject_Z 0). rewrite <- Zle_Qle.
    apply Z.mul_nonneg_nonneg; [done|]. apply Z.pow_nonneg. lia.
  - unfold Qle. simpl. lia.
Qed.

(** The doubles of some decimal literals, and operations on them. *)
Example rnd_literals :
  rnd (3 # 10) = 5404319552844595 # 18014398509481984 /\
  rnd (15 # 100) = 5404319552844595 # 36028797018963968 /\
  rnd (1 # 10) = 3602879701896397 # 36028797018963968 /\
  rnd (1 # 2) = 1 # 2 /\ rnd 6 = 6%Q /\
  add (rnd (15 # 100)) (rnd (85 # 100)) = 1%Q /\
  add (rnd (1 # 10)) (rnd (2 # 10)) = 1351079888211149 # 4503599627370496 /\
  mul (rnd (3 # 10)) (1 # 2) = rnd (15 # 100) /\
  div (rnd (3 # 10)) 3 = 7205759403792793 # 72057594037927936.
Proof. repeat split; vm_compute; reflexivity. Qed.

(** A tie goes to the even mantissa, among the integers above [2^53] and
    among the subnormal doubles, whose last place is [2^-1074]. *)
Example rnd_ties :
  rnd 9007199254740993 = 9007199254740992%Q /\
  rnd 9007199254740995 = 9007199254740996%Q /\
  rnd (1 # Z.to_pos (2 ^ 1074)) = 1 # Z.to_pos (2 ^ 1074) /\
  rnd (1 # Z.to_pos (2 ^ 1075)) = 0%Q /\
  rnd (3 # Z.to_pos (2 ^ 1075)) = 1 # Z.to_pos (2 ^ 1073).
Proof. repeat split; vm_compute; reflexivity. Qed.

End FloatFacts.

(** ** Strings *)

Module PyFacts.
Import Py Text Props.

Lemma split_blank_step c d r :
  split_blank (c :: d :: r) =
  if Ascii.eqb c nl && Ascii.eqb d nl then [] :: split_blank r
  else match split_blank (d :: r) with
       | p :: ps => (c :: p) :: ps
       | [] => [[c]]
       end.
Proof. reflexivity. Qed.

Lemma split_blank_cons x : exists p ps, split_blank x = p :: ps.
Proof.
  destruct x as [|c [|d r]]; [simpl; eauto..|].
  rewrite split_blank_step.
  destruct (Ascii.eqb c nl && Ascii.eqb d nl); eauto.
  destruct (split_blank (d :: r)); eauto.
Qed.

(** The first piece of a split starts as the text does. *)
Lemma split_blank_head x p ps e p' :
  split_blank x = p :: ps -> p = e :: p' -> exists x', x = e :: x'.
Proof.
  destruct x as [|c [|d r]]; [simpl..|rewrite split_blank_step].
  - intros [= <- <-]; discriminate.
  - intros [= <- <-] [= <- <-]; eauto.
  - destruct (Ascii.eqb c nl && Ascii.eqb d nl).
    + intros [= <- <-]; discriminate.
    + destruct (split_blank (d :: r)); intros [= <- <-] [= <- <-]; eauto.
Qed.

Lemma no_blank_nil : no_blank [].
Proof. intros [|? ?] b; discriminate. Qed.

Lemma no_blank_single c : no_blank [c].
Proof. intros [|? [|? ?]] b; discriminate. Qed.

Lemma split_blank_no_blank_aux n : forall x, length x <= n -> Forall no_blank (split_blank x).
Proof.
  induction n as [|n IH]; intros x Hn.
  - destruct x; [|simpl in Hn; lia]. repeat constructor. apply no_blank_nil.
  - destruct x as [|c [|d r]].
    + repeat constructor. apply no_blank_nil.
    + repeat constructor. apply no_blank_single.
    + simpl in Hn. rewrite split_blank_step.
      destruct (Ascii.eqb c nl && Ascii.eqb d nl) eqn:E.
      * constructor; [apply no_blank_nil|]. apply IH. lia.
      * assert (Hrec : Forall no_blank (split_blank (d :: r))) by (apply IH; simpl; lia).
        destruct (split_blank (d :: r)) as [|p ps] eqn:Hs.
        { repeat constructor. apply no_blank_single. }
        inversion Hrec as [|? ? Hp Hps]; subst. constructor; [|done].
        intros [|a0 a] b Heq.
        -- simpl in Heq. injection Heq as -> ->.
           destruct (split_blank_head _ _ _ nl b Hs eq_refl) as [x' Hx'].
           injection Hx' as -> _.
           rewrite Ascii.eqb_refl in E. discriminate.
        -- simpl in Heq. injection Heq as _ ->. by apply (Hp a b).
Qed.

(** No piece of [text.split("\n\n")] holds a blank line. *)
Lemma split_blank_no_blank x : Forall no_blank (split_blank x).
Proof. by apply (split_blank_no_blank_aux (length x)). Qed.

Lemma join_blank_cons p q qs : join blank (p :: q :: qs) = p ++ blank ++ join blank (q :: qs).
Proof. reflexivity. Qed.

Lemma split_blank_join_aux n : forall x, length x <= n -> join blank (split_blank x) = x.
Proof.
  induction n as [|n IH]; intros x Hn.
  - destruct x; [done|simpl in Hn; lia].
  - destruct x as [|c [|d r]]; [done..|].
    simpl in Hn. rewrite split_blank_step.
    destruct (Ascii.eqb c nl && Ascii.eqb d nl) eqn:E.
    + apply andb_prop in E as [->%Ascii.eqb_eq ->%Ascii.eqb_eq].
      destruct (split_blank_cons r) as (p & ps & Hs). rewrite Hs, join_blank_cons.
      rewrite <- Hs, IH by lia. done.
    + assert (Hrec : join blank (split_blank (d :: r)) = d :: r) by (apply IH; simpl; lia).
      destruct (split_blank_cons (d :: r)) as (p & ps & Hs). rewrite Hs in Hrec |- *.
      destruct ps as [|q qs].
      * simpl in Hrec |- *. by rewrite Hrec.
      * rewrite join_blank_cons in Hrec. rewrite join_blank_cons.
        by rewrite <- app_comm_cons, Hrec.
Qed.

(** Joining the pieces of a split with blank lines gives the text back. *)
Lemma split_blank_join x : join blank (split_blank x) = x.
Proof. by apply (split_blank_join_aux (length x)). Qed.

Lemma delimit_cons p ps : delimit (p :: ps) = p ++ blank ++ delimit ps.
Proof. unfold delimit. cbn [map concat]. by rewrite <- app_assoc. Qed.

Lemma delimit_join ps : ps <> [] -> delimit ps = join blank ps ++ blank.
Proof.
  induction ps as [|p [|q qs] IH]; intros Hne; [done| |].
  - rewrite delimit_cons. by cbn [delimit map concat join].
  - rewrite delimit_cons, IH, join_blank_cons by done. by rewrite <- !app_assoc.
Qed.

Lemma delimit_app ps qs : delimit (ps ++ qs) = delimit ps ++ delimit qs.
Proof. unfold delimit. by rewrite map_app, concat_app. Qed.

Lemma delimit_nil_inv ps : delimit ps = [] -> ps = [].
Proof.
  destruct ps as [|p ps]; [done|]. rewrite delimit_cons.
  intros H. apply (f_equal length) in H. rewrite !length_app in H. simpl in H. lia.
Qed.

End PyFacts.

(** ** The matcher *)

Module ReFacts.
Import Py Re Extract.

Lemma star_loop_advances greedy body k :
  (forall k' st res, body k' st = Some res ->
     exists st1, pos st <= pos st1 /\ k' st1 = Some res) ->
  forall fuel st res,
    star_loop greedy body k fuel st = Some res ->
    exists st1, pos st <= pos st1 /\ k st1 = Some res.
Proof.
  intros Hbody. induction fuel as [|fuel IHf]; intros st res H; simpl in H; [eauto|].
  assert (Hagain :
    body (fun st1 => if pos st <? pos st1 then star_loop greedy body k fuel st1 else None) st
    = Some res -> exists st1, pos st <= pos st1 /\ k st1 = Some res).
  { intros Ha. apply Hbody in Ha as (st1 & Hle1 & Ha).
    destruct (pos st <? pos st1); [|done].
    apply IHf in Ha as (st2 & Hle2 & Ha). exists st2. split; [lia|done]. }
  unfold orelse in H. destruct greedy.
  - destruct (body _ st) eqn:E; [injection H as <-; by apply Hagain|eauto].
  - destruct (k st) eqn:E; [injection H as <-; eauto|by apply Hagain].
Qed.

(** A match hands the continuation a state that is not before the one it
    started from. *)
Lemma rmatch_advances icase r : forall k st res,
  rmatch icase r k st = Some res ->
  exists st1, pos st <= pos st1 /\ k st1 = Some res.
Proof.
  induction r as [|c|p|r1 IH1 r2 IH2|r1 IH1 r2 IH2|greedy r1 IH1|i r1 IH1| |];
    intros k st res H; cbn [rmatch] in H.
  - eauto.
  - destruct (rest st) as [|x t]; [done|]. destruct (char_ok icase c x); [|done].
    eexists. split; [|exact H]. simpl. lia.
  - destruct (rest st) as [|x t]; [done|]. destruct (class_ok icase p x); [|done].
    eexists. split; [|exact H]. simpl. lia.
  - apply IH1 in H as (st1 & Hle1 & H). apply IH2 in H as (st2 & Hle2 & H).
    exists st2. split; [lia|done].
  - unfold orelse in H. destruct (rmatch icase r1 k st) eqn:E.
    + injection H as <-. by apply IH1 in E.
    + by apply IH2 in H.
  - by apply (star_loop_advances greedy (rmatch icase r1) k IH1) in H.
  - apply IH1 in H as (st1 & Hle1 & H). eexists. split; [|exact H]. simpl. lia.
  - destruct (pos st =? 0); [eauto|done].
  - destruct (rest st) as [|c [|? ?]]; [eauto| |done].
    destruct (Ascii.eqb c nl); [eauto|done].
Qed.

(** A pattern that ends with a literal character matches no empty text. *)
Lemma match_at_ends_with_char icase r c p x m :
  match_at icase (Cat r (Char c)) p x = Some m -> m_start m < m_end m.
Proof.
  unfold match_at. destruct (rmatch _ _ _ _) as [st'|] eqn:E; [|done].
  intros [= <-]. cbn [rmatch] in E.
  apply rmatch_advances in E as (st1 & Hle & E). cbn [rmatch] in E. simpl in Hle.
  destruct (rest st1) as [|y t]; [done|]. destruct (char_ok icase c y); [|done].
  injection E as <-. simpl. lia.
Qed.

Lemma match_at_cat_assoc icase r1 r2 r3 p x :
  match_at icase (Cat r1 (Cat r2 r3)) p x = match_at icase (Cat (Cat r1 r2) r3) p x.
Proof. reflexivity. Qed.

(** The header pattern ends with a line feed: its matches are not
    empty. *)
Lemma combined_pattern_not_empty section_patterns p x m :
  match_at true (combined_pattern section_patterns) p x = Some m -> m_start m < m_end m.
Proof.
  unfold combined_pattern, line_end, newline.
  rewrite !match_at_cat_assoc. apply match_at_ends_with_char.
Qed.

Lemma finditer_from_match icase r m : forall x skip p,
  m ∈ finditer_from icase r skip p x ->
  exists q y, match_at icase r q y = Some m.
Proof.
  induction x as [|c x IH]; intros skip p Hm.
  - destruct skip; simpl in Hm; [|by apply elem_of_nil in Hm].
    destruct (match_at icase r p []) eqn:E; [|by apply elem_of_nil in Hm].
    apply list_elem_of_singleton in Hm as ->. eauto.
  - destruct skip; cbn [finditer_from] in Hm; [|by apply IH in Hm].
    destruct (match_at icase r p (c :: x)) eqn:E; [|by apply IH in Hm].
    apply elem_of_cons in Hm as [->|Hm]; [eauto|by apply IH in Hm].
Qed.

(** Every header found takes at least one character, so that each search
    of [finditer] resumes after the previous match. *)
Lemma finditer_headers_not_empty text section_patterns :
  Forall (fun m => m_start m < m_end m)
    (finditer true (combined_pattern section_patterns) text).
Proof.
  apply list.Forall_forall. intros m (q & y & Hm)%finditer_from_match.
  by apply combined_pattern_not_empty in Hm.
Qed.

End ReFacts.

(** ** [chunk_text] *)

Module TextFacts.
Import Py Text Props PyFacts.


(** The loop invariant: the paragraphs seen so far are cut in groups, one
    per chunk appended and one for the chunk under way. *)
Lemma chunk_loop_groups max_chars paras :
  exists gs g,
    concat gs ++ g = paras /\
    foldl (chunk_step max_chars) ([], []) paras = (map delimit gs, delimit g) /\
    Forall (fits max_chars) gs /\ fits max_chars g /\ (paras <> [] -> g <> []).
Proof.
  induction paras as [|p paras IH] using rev_ind.
  - exists [], []. repeat split; try done. intros H; simpl in H; lia.
  - destruct IH as (gs & g & Hcat & Hfold & Hgs & Hg & _).
    rewrite foldl_app, Hfold. cbn [foldl chunk_step].
    destruct (max_chars <? Z.of_nat (length (delimit g) + length p))%Z eqn:E.
    + exists (gs ++ [g]), [p]. repeat split.
      * rewrite concat_app. simpl. rewrite app_nil_r. by rewrite Hcat.
      * rewrite map_app. simpl. f_equal. rewrite delimit_cons. by rewrite app_nil_r.
      * apply Forall_app. split; [done|]. by constructor.
      * intros H; simpl in H; lia.
      * done.
    + exists gs, (g ++ [p]). repeat split.
      * by rewrite app_assoc, Hcat.
      * f_equal. rewrite delimit_app, delimit_cons. by rewrite app_nil_r.
      * done.
      * intros _. apply Z.ltb_ge in E.
        rewrite delimit_app, delimit_cons, app_nil_r, !length_app. simpl. lia.
      * by destruct g.
Qed.

(** The chunks are groups of consecutive whole paragraphs. *)
Lemma chunk_text_groups text max_chars :
  exists groups,
    concat groups = split_blank text /\
    chunk_text text max_chars = map delimit groups /\
    Forall (fits max_chars) groups.
Proof.
  destruct (chunk_loop_groups max_chars (split_blank text))
    as (gs & g & Hcat & Hfold & Hgs & Hg & Hne).
  exists (gs ++ [g]). unfold chunk_text. rewrite Hfold. repeat split.
  - rewrite concat_app. simpl. by rewrite app_nil_r.
  - destruct (delimit g) eqn:Hd.
    + apply delimit_nil_inv in Hd.
      destruct (split_blank_cons text) as (p & ps & Hs).
      exfalso. apply Hne; [by rewrite Hs|done].
    + rewrite map_app. simpl. by rewrite Hd.
  - apply Forall_app. split; [done|]. by constructor.
Qed.

(** [chunk_text] always gives a chunk. *)
Lemma chunk_text_length text max_chars : 1 <= length (chunk_text text max_chars).
Proof.
  destruct (chunk_text_groups text max_chars) as (groups & Hcat & -> & _).
  rewrite length_map. destruct groups; simpl; [|lia].
  destruct (split_blank_cons text) as (p & ps & Hs). rewrite Hs in Hcat. discriminate.
Qed.

Lemma concat_map_delimit gs : concat (map delimit gs) = delimit (concat gs).
Proof.
  induction gs as [|g gs IH]; [done|]. simpl. by rewrite delimit_app, IH.
Qed.

(** The chunks, put end to end, are the text closed by one blank line:
    nothing is lost and nothing is cut but at a blank line. *)
Lemma chunk_text_concat text max_chars :
  concat (chunk_text text max_chars) = text ++ blank.
Proof.
  destruct (chunk_text_groups text max_chars) as (groups & Hcat & -> & _).
  rewrite concat_map_delimit, Hcat, delimit_join, split_blank_join; [done|].
  destruct (split_blank_cons text) as (p & ps & ->). done.
Qed.

Lemma chunk_text_paragraphs text max_chars :
  Forall (paragraph_chunk max_chars) (chunk_text text max_chars).
Proof.
  destruct (chunk_text_groups text max_chars) as (groups & Hcat & -> & Hfits).
  apply list.Forall_forall. intros c (g & -> & Hg)%list_elem_of_fmap.
  exists g. repeat split.
  - apply list.Forall_forall. intros p Hp.
    pose proof (split_blank_no_blank text) as Hnb.
    rewrite list.Forall_forall in Hnb. apply Hnb. rewrite <- Hcat.
    apply list_elem_of_In, in_concat. exists g. by rewrite <- !list_elem_of_In.
  - rewrite list.Forall_forall in Hfits. by apply Hfits.
Qed.

(** A paragraph that fits exactly is closed by its blank line all the
    same: the chunk is two characters longer than [max_chars]. *)
Example chunk_text_closing_blank :
  chunk_text (s "aaaaaaaaaa" ++ blank ++ s "b") 10 = [s "aaaaaaaaaa" ++ blank; s "b" ++ blank].
Proof. vm_compute. reflexivity. Qed.

(** A first paragraph that does not fit sends the empty chunk ahead. *)
Example chunk_text_empty_chunk :
  chunk_text (s "aaaaaaaaaa") 5 = [[]; s "aaaaaaaaaa" ++ blank].
Proof. vm_compute. reflexivity. Qed.

End TextFacts.

(** ** [detect_sections] *)


Module ExtractFacts.
Import Py Re Text Extract Props PyFacts TextFacts Examples.




(** A section within [max_chars] goes through unchanged. *)
Lemma process_section_within max_chars sec :
  (Z.of_nat (length (content sec)) <= max_chars)%Z -> process_section max_chars sec = [sec].
Proof.
  intros H. unfold process_section.
  destruct (max_chars <? _)%Z eqn:E; [|done]. apply Z.ltb_lt in E. lia.
Qed.

Lemma imap_new_section_content (g : nat -> str) chunks :
  map content (imap (fun i sub => new_section (g i) sub) chunks) = chunks.
Proof.
  revert g. induction chunks as [|c chunks IH]; intros g; [done|].
  simpl. f_equal. apply (IH (g ∘ S)).
Qed.

(** The sections made from one section hold its content, closed by a
    blank line when it was cut. *)
Lemma process_section_concat max_chars sec :
  concat (map content (process_section max_chars sec))
  = if (max_chars <? Z.of_nat (length (content sec)))%Z
    then content sec ++ blank else content sec.
Proof.
  unfold process_section. destruct (max_chars <? _)%Z.
  - rewrite <- (chunk_text_concat (content sec) max_chars). f_equal.
    apply (imap_new_section_content (part_title (title sec))).
  - simpl. apply app_nil_r.
Qed.

Lemma process_section_sized max_chars sec :
  Forall (sized max_chars) (process_section max_chars sec).
Proof.
  unfold process_section. destruct (max_chars <? _)%Z eqn:E.
  - apply list.Forall_forall. intros x (i & c & -> & Hc)%elem_of_lookup_imap.
    right. simpl.
    pose proof (chunk_text_paragraphs (content sec) max_chars) as Hall.
    rewrite list.Forall_lookup in Hall. by apply (Hall i).
  - apply Z.ltb_ge in E. repeat constructor. done.
Qed.

Lemma primary_loop_substantial text ms :
  Forall (fun sec => content sec <> [] /\ 200 < length (content sec)) (primary_loop text ms).
Proof.
  induction ms as [|m later IH]; [constructor|].
  cbn [primary_loop]. apply Forall_app. split; [|done].
  destruct (200 <? _) eqn:E; [|constructor].
  apply Nat.ltb_lt in E. repeat constructor; simpl; [|done].
  intros H. rewrite H in E. simpl in E. lia.
Qed.

(** The header pattern finds the two headers of [two_headers], and the
    primary tier makes a section of each. *)
Example two_headers_matches :
  map (fun m => (m_start m, m_end m, group two_headers 1 m))
    (finditer true (combined_pattern SECTION_TITLES) two_headers)
  = [(0, 9, s "Abstract"); (1059, 1077, s "1. Introduction")] /\
  length (primary_tier two_headers SECTION_TITLES) = 2.
Proof. split; vm_compute; reflexivity. Qed.

(** A text without a header goes to the fallback; with an introduction
    found, three sections come out. *)
Example fallback_with_introduction :
  map title (detect_sections (s "Introduction" ++ [nl] ++ s "Some words." ++ [nl])
               SECTION_TITLES CHUNK_SIZE)
  = [s "Introduction"; s "Main Body"; s "Conclusion"].
Proof. vm_compute. reflexivity. Qed.



(** What the size test of the chunker gives: every section of the output
    either has a content within [max_chars], or is a chunk made of
    paragraphs, each closed by a blank line, which, when it holds two
    paragraphs or more, is within [max_chars] but for its last blank
    line. *)
Lemma detect_sections_sized text section_patterns max_chars :
  Forall (sized max_chars) (detect_sections text section_patterns max_chars).
Proof.
  unfold detect_sections.
  induction (raw_sections text section_patterns) as [|sec l IH]; [constructor|].
  simpl. apply Forall_app. split; [apply process_section_sized|done].
Qed.

(** C2.  The claim fails on the code, which does not give the chunks of
    maximum size that [chunk_text] announces.  The text is four paragraphs
    of nine characters, each closed by a blank line, and [max_chars] is 10:
    every paragraph fits, the three sections of the proportional split are
    too long and are cut, and four of the seven sections that come out
    hold 11 characters, a paragraph and the blank line that the chunker
    adds to it without counting it. *)
Theorem detect_sections_over_max :
  Forall (fun p => length p <= 10) (split_blank short_paragraphs) /\
  map (fun sec => length (content sec)) (detect_sections short_paragraphs SECTION_TITLES 10)
  = [11; 2; 11; 11; 2; 11; 2] /\
  map title (detect_sections short_paragraphs SECTION_TITLES 10)
  = [ s "Introduction (Part 1)"; s "Introduction (Part 2)";
      s "Methods and Results (Part 1)"; s "Methods and Results (Part 2)";
      s "Methods and Results (Part 3)";
      s "Discussion and Conclusion (Part 1)"; s "Discussion and Conclusion (Part 2)" ] /\
  ~ Forall (fun sec => (Z.of_nat (length (content sec)) <= 10)%Z)
      (detect_sections short_paragraphs SECTION_TITLES 10).
Proof.
  assert (Hlengths :
    map (fun sec => length (content sec)) (detect_sections short_paragraphs SECTION_TITLES 10)
    = [11; 2; 11; 11; 2; 11; 2]) by (vm_compute; reflexivity).
  split; [vm_compute; repeat constructor|]. split; [exact Hlengths|].
  split; [vm_compute; reflexivity|].
  intros Hall.
  assert (Hmap : Forall (fun n => (Z.of_nat n <= 10)%Z)
                   (map (fun sec => length (content sec))
                      (detect_sections short_paragraphs SECTION_TITLES 10))).
  { apply Forall_fmap. exact Hall. }
  rewrite Hlengths in Hmap. apply Forall_cons in Hmap as [Hfirst _]. simpl in Hfirst. lia.
Qed.

(** A paragraph longer than [max_chars] stays whole, behind an empty
    chunk, and the blank line that closes it is added to it. *)
Lemma detect_sections_oversized :
  ~ Forall (fun sec => (Z.of_nat (length (content sec)) <= 5)%Z)
      (detect_sections one_paragraph SECTION_TITLES 5).
Proof.
  rewrite list.Forall_lookup. intros H.
  specialize (H 1 (new_section (s "Introduction (Part 2)") (repeat_nat (s "a") 10 ++ blank))).
  assert (Hlen : (12 <= 5)%Z) by (apply H; vm_compute; reflexivity).
  lia.
Qed.

(** C6, as amended.  Every section that the primary tier creates has a
    content of more than 200 characters, hence not empty. *)
Theorem primary_tier_substantial text section_patterns :
  Forall (fun sec => content sec <> [] /\ 200 < length (content sec))
    (primary_tier text section_patterns).
Proof.
  unfold primary_tier. destruct (2 <=? _); [|constructor].
  apply primary_loop_substantial.
Qed.

(** C6, the claim as stated fails: the proportional fallback on a short
    text gives short sections, the first one empty. *)
Lemma detect_sections_short :
  map content (detect_sections (s "abc") SECTION_TITLES CHUNK_SIZE) = [s ""; s "ab"; s "c"] /\
  ~ Forall (fun sec => content sec <> [] /\ 200 <= length (content sec))
      (detect_sections (s "abc") SECTION_TITLES CHUNK_SIZE).
Proof.
  split; [vm_compute; reflexivity|].
  rewrite list.Forall_lookup. intros H.
  destruct (H 0 (new_section (s "Introduction") [])) as [Hne _]; [vm_compute; reflexivity|].
  by apply Hne.
Qed.

End ExtractFacts.

(** ** [sorted] *)

Module SortedFacts.
Import Sorted Props.


Section By.
Context {A : Type} (before : A -> A -> bool).
Hypothesis before_total : forall x y, before x y = true \/ before y x = true.
Hypothesis before_trans :
  forall x y z, before x y = true -> before y z = true -> before x z = true.

Local Abbreviation precedes := (Sorted.precedes before).
Local Abbreviation before_snd := (Sorted.before_snd before).


Lemma insert_by_perm {B} (f : B -> B -> bool) x l : insert_by f x l ≡ₚ x :: l.
Proof.
  induction l as [|y t IH]; [done|]. simpl. destruct (f x y); [done|].
  rewrite IH. apply Permutation_swap.
Qed.

Lemma sorted_by_perm {B} (f : B -> B -> bool) l : sorted_by f l ≡ₚ l.
Proof.
  induction l as [|x t IH]; [done|]. unfold sorted_by in *. simpl.
  by rewrite insert_by_perm, IH.
Qed.

Lemma sorted_by_length {B} (f : B -> B -> bool) l : length (sorted_by f l) = length l.
Proof. by rewrite sorted_by_perm. Qed.

Lemma insert_by_snd x l :
  map snd (insert_by before_snd x l) = insert_by before (snd x) (map snd l).
Proof.
  induction l as [|y t IH]; [done|]. simpl. unfold Sorted.before_snd at 1.
  destruct (before (snd x) (snd y)); simpl; by rewrite ?IH.
Qed.

(** Sorting the entries with their positions and forgetting the
    positions is sorting the entries. *)
Lemma sorted_by_snd l : map snd (sorted_by before_snd l) = sorted_by before (map snd l).
Proof.
  induction l as [|x t IH]; [done|]. unfold sorted_by in *. simpl.
  by rewrite insert_by_snd, IH.
Qed.

Lemma insert_by_precedes x r :
  StronglySorted precedes r -> Forall (fun q => fst x < fst q) r ->
  StronglySorted precedes (insert_by before_snd x r).
Proof.
  induction 1 as [|y r Hr IH Hy]; intros Hx; simpl.
  - repeat constructor.
  - apply Forall_cons in Hx as [Hxy Hxr]. unfold Sorted.before_snd at 1.
    destruct (before (snd x) (snd y)) eqn:E.
    + constructor; [by constructor|]. constructor; [split; auto|].
      rewrite list.Forall_forall in Hy, Hxr |- *. intros z Hz. split.
      * destruct (Hy z Hz) as [Hyz _]. eauto.
      * right. by apply Hxr.
    + constructor; [by apply IH|].
      rewrite insert_by_perm. constructor; [|done]. split; [|by left].
      destruct (before_total (snd y) (snd x)); congruence.
Qed.

(** The stable sort ranks the entries by [before], the earlier position
    first among entries that may go either way. *)
Lemma sorted_by_precedes l :
  StronglySorted (fun p q => fst p < fst q) l ->
  StronglySorted precedes (sorted_by before_snd l).
Proof.
  induction 1 as [|x t Ht IH Hx]; [constructor|].
  unfold sorted_by in *. simpl. apply insert_by_precedes; [done|].
  fold (sorted_by before_snd t). by rewrite sorted_by_perm.
Qed.

(** A list in order is left as it is. *)
Lemma sorted_by_id l :
  StronglySorted (fun x y => before x y = true) l -> sorted_by before l = l.
Proof.
  induction 1 as [|x t Ht IH Hx]; [done|]. unfold sorted_by in *. simpl. rewrite IH.
  destruct t as [|y t']; [done|]. simpl.
  apply Forall_cons in Hx as [-> _]. done.
Qed.

Lemma precedes_before l :
  StronglySorted precedes l -> StronglySorted (fun x y => before x y = true) (map snd l).
Proof.
  apply (StronglySorted_fmap snd precedes). by intros p q [H _].
Qed.
End By.

Lemma indexed_from_snd {A} k (xs : list A) : map snd (indexed_from k xs) = xs.
Proof. revert k. induction xs as [|x t IH]; intros k; simpl; by rewrite ?IH. Qed.

Lemma elem_of_indexed_from {A} k (xs : list A) j y :
  (j, y) ∈ indexed_from k xs <-> k <= j /\ xs !! (j - k) = Some y.
Proof.
  revert k. induction xs as [|x t IH]; intros k; simpl.
  - rewrite elem_of_nil. split; [done|]. intros [_ Hl]. by rewrite lookup_nil in Hl.
  - rewrite elem_of_cons, IH. split.
    + intros [[= -> ->]|[Hk Hl]].
      * split; [lia|]. by rewrite Nat.sub_diag.
      * split; [lia|]. replace (j - k) with (S (j - S k)) by lia. done.
    + intros [Hk Hl]. destruct (decide (j = k)) as [->|Hne].
      * rewrite Nat.sub_diag in Hl. left. simpl in Hl. congruence.
      * right. split; [lia|]. replace (j - k) with (S (j - S k)) in Hl by lia. done.
Qed.

Lemma elem_of_indexed {A} (xs : list A) j y : (j, y) ∈ indexed xs <-> xs !! j = Some y.
Proof. unfold indexed. rewrite elem_of_indexed_from, Nat.sub_0_r. intuition lia. Qed.

Lemma indexed_from_sorted {A} k (xs : list A) :
  StronglySorted (fun p q : nat * A => fst p < fst q) (indexed_from k xs).
Proof.
  revert k. induction xs as [|x t IH]; intros k; simpl; constructor; [apply IH|].
  apply list.Forall_forall. intros [j y] [Hj _]%elem_of_indexed_from. simpl. lia.
Qed.

(** The stable sort of a list, through the ranking of its entries with
    their positions. *)
Lemma sorted_by_indexed {A} (before : A -> A -> bool) (xs : list A) :
  (forall x y, before x y = true \/ before y x = true) ->
  (forall x y z, before x y = true -> before y z = true -> before x z = true) ->
  exists r,
    sorted_by before xs = map snd r /\
    StronglySorted (precedes before) r /\
    (forall j y, (j, y) ∈ r <-> xs !! j = Some y).
Proof.
  intros Htot Htrans. exists (sorted_by (before_snd before) (indexed xs)).
  split; [|split].
  - unfold indexed. by rewrite sorted_by_snd, indexed_from_snd.
  - apply sorted_by_precedes; [done..|]. apply indexed_from_sorted.
  - intros j y. by rewrite sorted_by_perm, elem_of_indexed.
Qed.

Lemma Qle_bool_total x y : Qle_bool x y = true \/ Qle_bool y x = true.
Proof.
  rewrite !Qle_bool_iff. destruct (Qlt_le_dec y x); [right|left]; [by apply Qlt_le_weak|done].
Qed.

Lemma Qle_bool_trans x y z :
  Qle_bool x y = true -> Qle_bool y z = true -> Qle_bool x z = true.
Proof. rewrite !Qle_bool_iff. apply Qle_trans. Qed.

Lemma Qle_bool_false x y : Qle_bool x y = false <-> (y < x)%Q.
Proof.
  split.
  - intros H. apply Qnot_le_lt. intros Hle%Qle_bool_iff. congruence.
  - intros Hlt. destruct (Qle_bool x y) eqn:E; [|done].
    apply Qle_bool_iff in E. exfalso. by apply (Qlt_not_le y x).
Qed.

(** In a sort by decreasing key, the ranking is [ranks_before]. *)
Lemma precedes_reverse {A} (key : A -> Q) p q :
  precedes (fun x y => Qle_bool (key y) (key x)) p q -> ranks_before key p q.
Proof.
  intros [Hle [Hlt|Hidx]]; simpl in *.
  - left. by apply Qle_bool_false.
  - apply Qle_bool_iff in Hle.
    destruct (Qle_lt_or_eq _ _ Hle) as [Hlt|Heq]; [by left|right].
    split; [by symmetry|done].
Qed.

(** With three entries or more, the first three of the sort by decreasing
    key are the three that rank first. *)
Lemma take3_sorted_reverse {A} (key : A -> Q) (xs : list A) :
  3 <= length xs -> top3_of key xs (take 3 (sorted_reverse key xs)).
Proof.
  intros Hlen.
  destruct (sorted_by_indexed (fun x y => Qle_bool (key y) (key x)) xs)
    as (r & Hr & Hsorted & Hmem).
  { intros x y. apply Qle_bool_total. }
  { intros x y z H1 H2. by apply (Qle_bool_trans _ _ _ H2 H1). }
  unfold sorted_reverse. rewrite Hr.
  assert (Hrl : length r = length xs).
  { rewrite <- (length_map snd r), <- Hr. apply sorted_by_length. }
  destruct r as [|[i1 x1] [|[i2 x2] [|[i3 x3] rest]]]; simpl in Hrl; try lia.
  apply StronglySorted_inv in Hsorted as [Hsorted H1].
  apply StronglySorted_inv in Hsorted as [Hsorted H2].
  apply StronglySorted_inv in Hsorted as [_ H3].
  apply Forall_cons in H1 as [H12 _]. apply Forall_cons in H2 as [H23 _].
  exists i1, i2, i3, x1, x2, x3. repeat split.
  - apply Hmem. rewrite !elem_of_cons. tauto.
  - apply Hmem. rewrite !elem_of_cons. tauto.
  - apply Hmem. rewrite !elem_of_cons. tauto.
  - by apply precedes_reverse.
  - by apply precedes_reverse.
  - intros j y Hj Hn1 Hn2 Hn3. apply (precedes_reverse key (i3, x3) (j, y)).
    rewrite list.Forall_forall in H3. apply H3.
    apply Hmem in Hj. rewrite !elem_of_cons in Hj.
    destruct Hj as [[= -> ->]|[[= -> ->]|[[= -> ->]|Hj]]]; done.
Qed.

Lemma sorted_by_ext {A} (f g : A -> A -> bool) l :
  (forall x y, f x y = g x y) -> sorted_by f l = sorted_by g l.
Proof.
  intros Hfg. unfold sorted_by. induction l as [|x t IH]; [done|]. simpl. rewrite IH.
  generalize (foldr (insert_by g) [] t). clear IH. intros r.
  induction r as [|y r IHr]; [done|].
  simpl. by rewrite Hfg, IHr.
Qed.

Lemma sorted_reverse_ext {A} (key1 key2 : A -> Q) l :
  (forall x, key1 x = key2 x) -> sorted_reverse key1 l = sorted_reverse key2 l.
Proof. intros H. apply sorted_by_ext. intros x y. by rewrite !H. Qed.

(** The ranking looks at the keys of the entries of the list only. *)
Lemma top3_of_ext {A} (key key' : A -> Q) (xs out : list A) :
  (forall x, x ∈ xs -> key x = key' x) -> top3_of key xs out -> top3_of key' xs out.
Proof.
  intros Hkey (i1 & i2 & i3 & x1 & x2 & x3 & -> & H1 & H2 & H3 & R12 & R23 & Hrest).
  pose proof (list_elem_of_lookup_2 _ _ _ H1) as E1.
  pose proof (list_elem_of_lookup_2 _ _ _ H2) as E2.
  pose proof (list_elem_of_lookup_2 _ _ _ H3) as E3.
  exists i1, i2, i3, x1, x2, x3. unfold ranks_before in *. cbn [fst snd] in *.
  repeat split; try done.
  - by rewrite <- !Hkey.
  - by rewrite <- !Hkey.
  - intros j y Hy N1 N2 N3. pose proof (list_elem_of_lookup_2 _ _ _ Hy) as Ey.
    rewrite <- !Hkey by done. by apply Hrest.
Qed.

Lemma ranks_before_le {A} (key : A -> Q) (p q : nat * A) :
  ranks_before key p q -> (key (snd q) <= key (snd p))%Q.
Proof. intros [Hlt|[Heq _]]; [by apply Qlt_le_weak|]. rewrite Heq. apply Qle_refl. Qed.

(** An entry with a key below the keys at three positions of the list is
    not one of the three that rank first. *)
Lemma top3_of_excludes {A} (key : A -> Q) (xs out : list A) (l : A) j1 j2 j3 y1 y2 y3 :
  top3_of key xs out ->
  j1 < j2 < j3 ->
  xs !! j1 = Some y1 -> xs !! j2 = Some y2 -> xs !! j3 = Some y3 ->
  (key l < key y1)%Q -> (key l < key y2)%Q -> (key l < key y3)%Q ->
  l ∉ out.
Proof.
  intros (i1 & i2 & i3 & x1 & x2 & x3 & -> & H1 & H2 & H3 & R12 & R23 & Hrest)
    Hj Y1 Y2 Y3 K1 K2 K3 Hin.
  apply ranks_before_le in R12, R23. cbn [snd] in R12, R23.
  assert (Hl : exists i, xs !! i = Some l /\ (i = i1 \/ i = i2 \/ i = i3) /\
                         (key x3 <= key l)%Q).
  { rewrite !elem_of_cons in Hin. destruct Hin as [->|[->|[->|Hin]]].
    - exists i1. repeat split; [done|by left|]. by apply (Qle_trans _ (key x2)).
    - exists i2. repeat split; [done|right; by left|done].
    - exists i3. repeat split; [done|right; by right|apply Qle_refl].
    - by apply elem_of_nil in Hin. }
  destruct Hl as (i & Hi & Hpos & Hle).
  assert (Hne : forall j y, xs !! j = Some y -> (key l < key y)%Q -> j <> i).
  { intros j y Hy Hlt ->. rewrite Hi in Hy. injection Hy as <-. by apply Qlt_irrefl in Hlt. }
  pose proof (Hne _ _ Y1 K1) as N1. pose proof (Hne _ _ Y2 K2) as N2.
  pose proof (Hne _ _ Y3 K3) as N3.
  assert (Hout : (j1 <> i1 /\ j1 <> i2 /\ j1 <> i3) \/ (j2 <> i1 /\ j2 <> i2 /\ j2 <> i3)
                 \/ (j3 <> i1 /\ j3 <> i2 /\ j3 <> i3)) by lia.
  assert (Hbelow : forall j y, xs !! j = Some y -> (key l < key y)%Q ->
                     j <> i1 -> j <> i2 -> j <> i3 -> False).
  { intros j y Hy Hlt M1 M2 M3. pose proof (Hrest j y Hy M1 M2 M3) as R.
    apply ranks_before_le in R. cbn [snd] in R.
    apply (Qlt_irrefl (key l)). apply (Qlt_le_trans _ (key y)); [done|].
    by apply (Qle_trans _ (key x3)). }
  destruct Hout as [(M1 & M2 & M3)|[(M1 & M2 & M3)|(M1 & M2 & M3)]].
  - by apply (Hbelow j1 y1).
  - by apply (Hbelow j2 y2).
  - by apply (Hbelow j3 y3).
Qed.

(** The result of the sort by decreasing key is in that order. *)
Lemma sorted_reverse_sorted {A} (key : A -> Q) l :
  StronglySorted (fun x y => Qle_bool (key y) (key x) = true) (sorted_reverse key l).
Proof.
  destruct (sorted_by_indexed (fun x y => Qle_bool (key y) (key x)) l)
    as (r & Hr & Hsorted & _).
  { intros x y. apply Qle_bool_total. }
  { intros x y z H1 H2. by apply (Qle_bool_trans _ _ _ H2 H1). }
  unfold sorted_reverse. rewrite Hr.
  by apply (precedes_before (fun x y => Qle_bool (key y) (key x))).
Qed.

(** Sorting again the first entries of a sorted list changes nothing. *)
Lemma sorted_reverse_take {A} (key : A -> Q) n l :
  sorted_reverse key (take n (sorted_reverse key l)) = take n (sorted_reverse key l).
Proof.
  apply sorted_by_id. apply (StronglySorted_app_1_l _ _ (drop n (sorted_reverse key l))).
  rewrite take_drop. apply sorted_reverse_sorted.
Qed.

End SortedFacts.

(** ** The store *)

Module StoreFacts.

Lemma store_insert_eq (h : store) (l : loc) (sec : section) : (<[l := sec]> h) l = sec.
Proof. apply (fn_lookup_insert (A := nat)). Qed.

Lemma store_insert_ne (h : store) (l l' : loc) (sec : section) :
  l <> l' -> (<[l := sec]> h) l' = h l'.
Proof. apply (fn_lookup_insert_ne (A := nat)). Qed.

End StoreFacts.

(** ** [compute_topic_similarity] and [filter_irrelevant_sections] *)

Module TopicFacts.
Import Py Sorted Props SortedFacts StoreFacts Topic.


Lemma repeat_nat_replicate x n : repeat_nat x n = concat (replicate n x).
Proof. induction n as [|n IH]; [done|]. simpl. by rewrite IH. Qed.

Lemma int_of_nonneg q : (0 <= q)%Q -> int_of q = Qfloor q.
Proof.
  destruct q as [n d]. unfold Qle, int_of, Qfloor. simpl. intros H.
  apply Z.quot_div_nonneg; lia.
Qed.

Lemma int_of_neg q : (q < 0)%Q -> (int_of q <= 0)%Z.
Proof.
  destruct q as [n d]. unfold Qlt, int_of. simpl. intros H.
  apply Z.quot_le_upper_bound; lia.
Qed.

Lemma round_floor q : (Qfloor q <= round q <= Qfloor q + 1)%Z.
Proof.
  unfold round. destruct (_ =? 0)%Z; [lia|].
  destruct (Qeq_bool _ _); [destruct (Z.even _)|]; lia.
Qed.

Section WithVectoriser.
Variable tfidf_cosine : str -> str -> option Q.
Variable topics : topic_dict.
Variable similarity_threshold : Q.

Local Abbreviation similarity_at := (Topic.similarity_at tfidf_cosine topics).
Local Abbreviation passes := (Topic.passes tfidf_cosine topics similarity_threshold).
Local Abbreviation annotated := (Topic.annotated tfidf_cosine topics).


Lemma set_topic_similarity_twice q sec :
  set_topic_similarity q (set_topic_similarity q sec) = set_topic_similarity q sec.
Proof. done. Qed.

Lemma annotated_content h sections l : content (annotated h sections l) = content (h l).
Proof. unfold Topic.annotated. by destruct (decide _). Qed.

Lemma filter_pass_spec h sections :
  (forall l, fst (filter_pass tfidf_cosine h sections topics similarity_threshold) l
             = annotated h sections l) /\
  snd (filter_pass tfidf_cosine h sections topics similarity_threshold)
  = filter (passes h) sections.
Proof.
  unfold filter_pass. induction sections as [|x sections [IHh IHr]] using rev_ind.
  - split; [|done]. intros l. unfold Topic.annotated. by rewrite decide_False by apply not_elem_of_nil.
  - rewrite foldl_app. cbn [foldl].
    destruct (foldl _ _ sections) as [h1 rel1]. simpl in IHh, IHr.
    unfold filter_step.
    assert (Hsim : compute_topic_similarity tfidf_cosine topics (content (h1 x))
                   = similarity_at h x).
    { unfold Topic.similarity_at. by rewrite IHh, annotated_content. }
    rewrite Hsim. split.
    + intros l. cbn [fst]. destruct (decide (x = l)) as [->|Hne].
      * rewrite store_insert_eq, IHh. unfold Topic.annotated.
        rewrite (decide_True (P := l ∈ sections ++ [l])) by (apply elem_of_app; right; by left).
        by destruct (decide (l ∈ sections)).
      * rewrite store_insert_ne, IHh by done. unfold Topic.annotated.
        destruct (decide (l ∈ sections)) as [Hin|Hnin].
        -- by rewrite decide_True by (apply elem_of_app; by left).
        -- rewrite decide_False; [done|]. rewrite elem_of_app, list_elem_of_singleton.
           intros [?|?]; [done|]. by subst.
    + rewrite filter_app, <- IHr, filter_cons, filter_nil. cbn [snd].
      destruct (decide (passes h x)) as [Hp|Hp]; unfold Topic.passes in Hp.
      * apply Is_true_true in Hp. by rewrite Hp.
      * apply Is_true_false in Hp. by rewrite Hp, app_nil_r.
Qed.

Lemma similarity_at_annotated h sections l :
  similarity_at (annotated h sections) l = similarity_at h l.
Proof. unfold Topic.similarity_at. by rewrite annotated_content. Qed.

Lemma annotated_get h sections l :
  l ∈ sections -> get_topic_similarity (annotated h sections) l = similarity_at h l.
Proof.
  intros Hl. unfold get_topic_similarity, Topic.annotated. by rewrite decide_True by done.
Qed.

(** Annotating once more the sections of a list that is within the first
    one changes nothing. *)
Lemma annotated_again h sections out l :
  out ⊆ sections -> annotated (annotated h sections) out l = annotated h sections l.
Proof.
  intros Hsub. unfold Topic.annotated at 1.
  destruct (decide (l ∈ out)) as [Hin|Hnin]; [|done].
  rewrite similarity_at_annotated. unfold Topic.annotated.
  rewrite decide_True by (by apply Hsub). done.
Qed.

Lemma filter_pass_fst h sections l :
  fst (filter_pass tfidf_cosine h sections topics similarity_threshold) l
  = annotated h sections l.
Proof. apply filter_pass_spec. Qed.

Lemma filter_pass_snd h sections :
  snd (filter_pass tfidf_cosine h sections topics similarity_threshold)
  = filter (passes h) sections.
Proof. apply filter_pass_spec. Qed.

(** The floor of the filter: with three sections or more, three come out
    at least, and when fewer than three reach the threshold the three
    that rank first by similarity come out. *)
Lemma filter_floor h sections :
  3 <= length sections ->
  let r := filter_irrelevant_sections tfidf_cosine h sections topics similarity_threshold in
  3 <= length (snd r) /\
  (length (snd (filter_pass tfidf_cosine h sections topics similarity_threshold)) < 3 ->
   top3_of (get_topic_similarity (fst r)) sections (snd r)).
Proof.
  intros Hlen. unfold filter_irrelevant_sections.
  destruct (filter_pass _ _ _ _ _) as [h1 rel] eqn:Hpass. cbn [snd].
  destruct ((length rel <? 3) && (3 <=? length sections)) eqn:E; cbn [fst snd].
  - split; [|intros _; by apply take3_sorted_reverse].
    rewrite length_take. unfold sorted_reverse. rewrite sorted_by_length. lia.
  - apply andb_false_iff in E as [E|E].
    + apply Nat.ltb_ge in E. split; [done|lia].
    + apply Nat.leb_gt in E. lia.
Qed.

Lemma passes_annotated h sections l : passes (annotated h sections) l <-> passes h l.
Proof. unfold Topic.passes. by rewrite similarity_at_annotated. Qed.

Lemma annotated_ext h h' out l : h l = h' l -> annotated h out l = annotated h' out l.
Proof. intros H. unfold Topic.annotated, Topic.similarity_at. by rewrite H. Qed.

Lemma passes_ext h h' l : h l = h' l -> passes h l <-> passes h' l.
Proof. intros H. unfold Topic.passes, Topic.similarity_at. by rewrite H. Qed.

(** A second pass over sections taken from the first list: the store is
    left as it is, and the same sections reach the threshold. *)
Lemma filter_pass_again h sections h1 out :
  (forall l, h1 l = annotated h sections l) -> out ⊆ sections ->
  (forall l, fst (filter_pass tfidf_cosine h1 out topics similarity_threshold) l = h1 l) /\
  snd (filter_pass tfidf_cosine h1 out topics similarity_threshold) = filter (passes h) out.
Proof.
  intros Hh1 Hsub. split.
  - intros l. rewrite filter_pass_fst, (annotated_ext h1 (annotated h sections)) by done.
    by rewrite annotated_again, Hh1.
  - rewrite filter_pass_snd. apply list_filter_iff. intros l.
    by rewrite (passes_ext h1 (annotated h sections)), passes_annotated.
Qed.

(** What the filter returns: the annotated store with either the three
    sections that the fallback picks, or the sections that reach the
    threshold. *)
Lemma filter_result h sections :
  exists h1 out,
    filter_irrelevant_sections tfidf_cosine h sections topics similarity_threshold
    = (h1, out) /\
    (forall l, h1 l = annotated h sections l) /\
    (length (filter (passes h) sections) < 3 /\ 3 <= length sections /\
     out = take 3 (sorted_reverse (get_topic_similarity h1) sections)
     \/ ~ (length (filter (passes h) sections) < 3 /\ 3 <= length sections) /\
        out = filter (passes h) sections).
Proof.
  unfold filter_irrelevant_sections.
  pose proof (filter_pass_fst h sections) as Hh1.
  pose proof (filter_pass_snd h sections) as Hrel1.
  destruct (filter_pass _ h sections _ _) as [h1 rel1]. cbn [fst snd] in Hh1, Hrel1.
  subst rel1.
  destruct ((length _ <? 3) && (3 <=? length sections)) eqn:E.
  - apply andb_prop in E as [Hlt%Nat.ltb_lt Hge%Nat.leb_le]. eauto 10.
  - eexists _, _. split; [done|]. split; [done|]. right. split; [|done].
    intros [Hlt%Nat.ltb_lt Hge%Nat.leb_le]. rewrite Hlt, Hge in E. discriminate.
Qed.

(** C8.  Filtering the output of the filter once more, with the same
    topics and the same threshold, gives the same sections again, in the
    same order, and leaves their annotations as they are. *)
Theorem filter_idempotent h sections :
  let r1 := filter_irrelevant_sections tfidf_cosine h sections topics similarity_threshold in
  let r2 := filter_irrelevant_sections tfidf_cosine (fst r1) (snd r1) topics
              similarity_threshold in
  snd r2 = snd r1 /\ forall l, fst r2 l = fst r1 l.
Proof.
  cbv zeta.
  destruct (filter_result h sections) as (h1 & out1 & -> & Hh1 & Hout1). cbn [fst snd].
  destruct Hout1 as [(Hlt & Hge & Hout1)|(Hcond & Hout1)].
  - assert (Hlen1 : length out1 = 3).
    { rewrite Hout1. unfold sorted_reverse. rewrite length_take, sorted_by_length. lia. }
    assert (Hsub : out1 ⊆ sections).
    { intros l Hl. rewrite Hout1 in Hl. apply elem_of_take in Hl as (i & Hi & _).
      apply list_elem_of_lookup_2 in Hi. unfold sorted_reverse in Hi.
      by rewrite sorted_by_perm in Hi. }
    destruct (filter_pass_again h sections h1 out1 Hh1 Hsub) as [Hh2 Hrel2].
    unfold filter_irrelevant_sections.
    destruct (filter_pass _ h1 out1 _ _) as [h2 rel2]. cbn [fst snd] in Hh2, Hrel2.
    assert (Hlen2 : length rel2 < 3).
    { subst rel2. eapply Nat.le_lt_trans; [|exact Hlt].
      rewrite <- (filter_Permutation (passes h) _ _
                    (sorted_by_perm (fun x y => Qle_bool (get_topic_similarity h1 y)
                                                  (get_topic_similarity h1 x)) sections)).
      fold (sorted_reverse (get_topic_similarity h1) sections).
      rewrite Hout1.
      rewrite <- (take_drop 3 (sorted_reverse (get_topic_similarity h1) sections)) at 2.
      rewrite filter_app, length_app. lia. }
    replace ((length rel2 <? 3) && (3 <=? length out1)) with true; cbn [fst snd].
    2:{ symmetry. apply andb_true_intro. split; [by apply Nat.ltb_lt|apply Nat.leb_le; lia]. }
    split; [|done].
    rewrite (sorted_reverse_ext (get_topic_similarity h2) (get_topic_similarity h1)).
    2:{ intros l. unfold get_topic_similarity. by rewrite Hh2. }
    rewrite Hout1 at 1. rewrite sorted_reverse_take, <- Hout1. apply take_ge. lia.
  - assert (Hsub : out1 ⊆ sections).
    { intros l. rewrite Hout1. by intros [_ ?]%list_elem_of_filter. }
    destruct (filter_pass_again h sections h1 out1 Hh1 Hsub) as [Hh2 Hrel2].
    unfold filter_irrelevant_sections.
    destruct (filter_pass _ h1 out1 _ _) as [h2 rel2]. cbn [fst snd] in Hh2, Hrel2.
    assert (Heq : rel2 = out1).
    { rewrite Hrel2, Hout1. by apply list_filter_filter_r. }
    rewrite Heq.
    replace ((length out1 <? 3) && (3 <=? length out1)) with false; [done|].
    symmetry. apply andb_false_iff.
    destruct (Nat.ltb_spec (length out1) 3); [right; apply Nat.leb_gt; lia|by left].
Qed.
End WithVectoriser.

Lemma mul_block item : mul (lower_str (fst item)) (repetitions (snd item)) = block item.
Proof. unfold mul, block. apply repeat_nat_replicate. Qed.

Lemma Qfloor_neg q : (q < 0)%Q -> (Qfloor q < 0)%Z.
Proof.
  intros Hq. rewrite Zlt_Qlt. eapply Qle_lt_trans; [apply Qfloor_le|done].
Qed.

(** The topic document as the code writes it: one block per topic, in the
    order of the dictionary, the blocks joined by single spaces. *)
Lemma topic_text_blocks topics : topic_text topics = join (s " ") (map block topics).
Proof. unfold topic_text. f_equal. apply map_ext. intros item. apply mul_block. Qed.

Lemma repeat_nat_repeats term n : repeats term (S n) (repeat_nat term (S n)).
Proof.
  induction n as [|n IH].
  - simpl. rewrite app_nil_r. constructor.
  - change (repeat_nat term (S (S n))) with (term ++ [] ++ repeat_nat term (S n)).
    by constructor.
Qed.

Lemma repeats_length term n b : repeats term n b -> n * length term <= length b.
Proof.
  induction 1 as [|n gap b _ _ IH]; [simpl; lia|].
  rewrite !length_app. simpl in IH |- *. lia.
Qed.

(** C5, as amended.  The topic document is made of one block per topic,
    in the order of the dictionary, the blocks joined by single spaces; the
    block of a topic holds its term in lower case
    [max(1, int(weight * 10))] times, where the product is the product of
    floats and [int] cuts its fraction off. *)
Theorem topic_text_repetitions topics :
  exists blocks,
    topic_text topics = join (s " ") blocks /\
    Forall2 (fun item b =>
               repeats (lower_str (fst item))
                 (Z.to_nat (Z.max 1 (int_of (Float.mul (snd item) (Float.of_Z 10))))) b)
      topics blocks.
Proof.
  exists (map block topics). split; [apply topic_text_blocks|].
  apply Forall2_fmap_r, Forall_Forall2_diag, list.Forall_forall. intros item _.
  unfold compose. rewrite <- (mul_block item). unfold mul, repetitions.
  destruct (Z.to_nat _) as [|n] eqn:E; [lia|]. apply repeat_nat_repeats.
Qed.

(** C5, the claim as stated fails: for the weight 7/8 the product is 8.75,
    which [round] takes to 9 and [int] to 8; the document does not hold the
    term 9 times, however the copies are set off, and is not the document
    of the specification. *)
Lemma topic_text_not_as_specified :
  round ((7 # 8) * 10) = 9%Z /\
  int_of (Float.mul (7 # 8) (Float.of_Z 10)) = 8%Z /\
  ~ repeats (s "ab") 9 (topic_text [(s "ab", 7 # 8)]) /\
  topic_text [(s "ab", 7 # 8)] <> topic_text_as_specified [(s "ab", 7 # 8)].
Proof.
  split; [vm_compute; reflexivity|]. split; [vm_compute; reflexivity|]. split.
  - intros H%repeats_length. vm_compute in H. lia.
  - intros H. vm_compute in H. discriminate.
Qed.

(** The product is the product of the doubles: the doubles nearest to 0.3,
    0.6 and 0.7 give 3, 6 and 7 copies, where the exact products of their
    values with 10 lie just below 3, 6 and 7. *)
Example repetitions_of_doubles :
  map (fun w => repetitions (Float.rnd w)) [3 # 10; 6 # 10; 7 # 10; 29 # 100]
  = [3; 6; 7; 2]%Z /\
  map (fun w => int_of (Float.rnd w * 10)) [3 # 10; 6 # 10; 7 # 10; 29 # 100]
  = [2; 5; 6; 2]%Z.
Proof. split; vm_compute; reflexivity. Qed.

End TopicFacts.

(** ** [ensure_content_coherence] *)

Module CoherenceFacts.
Import Py Sorted Props SortedFacts Coherence.

Lemma omap_lookup_seq {A} (l : list A) a m :
  omap (fun i => l !! i) (seq a m) = take m (drop a l).
Proof.
  revert a. induction m as [|m IH]; intros a; [done|].
  cbn [seq]. change (omap (fun i => l !! i) (a :: seq (S a) m))
    with (match l !! a with
          | Some x => x :: omap (fun i => l !! i) (seq (S a) m)
          | None => omap (fun i => l !! i) (seq (S a) m)
          end).
  rewrite IH. destruct (l !! a) as [x|] eqn:E.
  - by rewrite (drop_S l x a E).
  - apply lookup_ge_None in E. rewrite !drop_ge by lia. by rewrite !take_nil.
Qed.

Lemma filter_seq_ne k a m : k < a \/ a + m <= k -> filter (fun i => i ≠ k) (seq a m) = seq a m.
Proof.
  revert a. induction m as [|m IH]; intros a Hk; [done|].
  cbn [seq]. rewrite filter_cons_True by lia. f_equal. apply IH. lia.
Qed.

(** Leaving the index [k] out is deleting the entry at [k]. *)
Lemma without_index_delete {A} k (l : list A) : without_index k l = delete k l.
Proof.
  unfold without_index. destruct (decide (k < length l)) as [Hk|Hk].
  - replace (length l) with (k + S (length l - S k)) at 1 by lia.
    rewrite seq_app, filter_app. cbn [seq]. rewrite filter_cons_False by (intros H; by apply H).
    rewrite !filter_seq_ne by lia. rewrite omap_app, !omap_lookup_seq.
    rewrite delete_take_drop, drop_0. f_equal.
    apply take_ge. rewrite length_drop. lia.
  - rewrite filter_seq_ne by lia. rewrite omap_lookup_seq, drop_0, firstn_all.
    symmetry. rewrite delete_take_drop, take_ge, drop_ge by lia. apply app_nil_r.
Qed.

Lemma section_scores_lookup sim n j y :
  section_scores sim n !! j = Some y <-> j < n /\ y = (j, mean_similarity sim n j).
Proof.
  unfold section_scores. rewrite list_lookup_fmap. split.
  - destruct (seq 0 n !! j) as [i|] eqn:E; [|done].
    apply lookup_seq in E as [-> Hj]. simpl. intros [= <-]. done.
  - intros [Hj ->]. by rewrite lookup_seq_lt.
Qed.

(** In a sort by increasing key, the ranking is [ranks_lower]. *)
Lemma precedes_scores sim n i j :
  precedes (fun x y : nat * Q => Qle_bool (snd x) (snd y))
    (i, (i, mean_similarity sim n i)) (j, (j, mean_similarity sim n j)) ->
  ranks_lower (mean_similarity sim n) i j.
Proof.
  intros [Hle [Hlt|Hidx]]; simpl in *.
  - left. by apply Qle_bool_false.
  - apply Qle_bool_iff in Hle.
    destruct (Qle_lt_or_eq _ _ Hle) as [Hlt|Heq]; [by left|by right].
Qed.

(** The mean that the loop computes for a section is the mean of its
    similarities to the others. *)
Lemma mean_similarity_others sim n i :
  i < n -> 2 <= n -> mean_similarity sim n i = mean_to_others sim n i.
Proof.
  intros Hi Hn. unfold mean_similarity, mean_to_others.
  assert (Hothers : filter (fun j => j ≠ i) (seq 0 n) = seq 0 i ++ seq (S i) (n - S i)).
  { replace n with (i + S (n - S i)) at 1 by lia.
    rewrite seq_app, filter_app. cbn [seq Nat.add].
    rewrite filter_cons_False by (intros H; by apply H).
    by rewrite !filter_seq_ne by lia. }
  rewrite Hothers.
  assert (Hlength : length (map (sim i) (seq 0 i ++ seq (S i) (n - S i))) = n - 1).
  { rewrite length_map, length_app, !length_seq. lia. }
  rewrite Hlength.
  destruct (map (sim i) (seq 0 i ++ seq (S i) (n - S i))); [simpl in Hlength; lia|done].
Qed.

Section WithVectoriser.
Variable tfidf_pairwise : list str -> option (nat -> nat -> Q).

(** C9.  A list of at most two sections is returned as it is. *)
Theorem coherence_small h sections :
  length sections <= 2 -> ensure_content_coherence tfidf_pairwise h sections = sections.
Proof.
  intros H. unfold ensure_content_coherence.
  by rewrite (proj2 (Nat.leb_le _ _) H).
Qed.

(** The sorted scores start with the two positions that rank lowest. *)
Lemma sorted_scores_head sim n :
  3 <= n ->
  exists k k2 tail,
    sorted snd (section_scores sim n)
    = (k, mean_similarity sim n k) :: (k2, mean_similarity sim n k2) :: tail /\
    tail <> [] /\ k < n /\ k2 < n /\ k <> k2 /\
    (forall j, j < n -> j <> k -> ranks_lower (mean_similarity sim n) k j) /\
    (forall j, j < n -> j <> k -> j <> k2 -> ranks_lower (mean_similarity sim n) k2 j).
Proof.
  intros Hn.
  destruct (sorted_by_indexed (fun x y : nat * Q => Qle_bool (snd x) (snd y))
              (section_scores sim n)) as (r & Hr & Hsorted & Hmem).
  { intros x y. apply Qle_bool_total. }
  { intros x y z. apply Qle_bool_trans. }
  assert (Hrl : length r = n).
  { rewrite <- (length_map snd r), <- Hr, sorted_by_length.
    unfold section_scores. by rewrite length_map, length_seq. }
  destruct r as [|[j1 y1] [|[j2 y2] [|p3 rest]]]; simpl in Hrl; try lia.
  assert (H1 : j1 < n /\ y1 = (j1, mean_similarity sim n j1)).
  { apply section_scores_lookup, Hmem. rewrite !elem_of_cons. tauto. }
  assert (H2 : j2 < n /\ y2 = (j2, mean_similarity sim n j2)).
  { apply section_scores_lookup, Hmem. rewrite !elem_of_cons. tauto. }
  destruct H1 as [Hj1 ->], H2 as [Hj2 ->].
  apply StronglySorted_inv in Hsorted as [Hsorted Hall1].
  apply StronglySorted_inv in Hsorted as [_ Hall2].
  rewrite list.Forall_forall in Hall1, Hall2.
  assert (Hrank1 : forall j, j < n -> j <> j1 -> ranks_lower (mean_similarity sim n) j1 j).
  { intros j Hj Hne. apply precedes_scores, Hall1.
    assert (Hin : (j, (j, mean_similarity sim n j))
                  ∈ (j1, (j1, mean_similarity sim n j1))
                    :: (j2, (j2, mean_similarity sim n j2)) :: p3 :: rest)
      by (by apply Hmem, section_scores_lookup).
    apply elem_of_cons in Hin as [[= ->]|Hin]; done. }
  exists j1, j2, (snd p3 :: map snd rest). repeat split; try done.
  - intros Heq. subst j2.
    assert (Hin : (j1, (j1, mean_similarity sim n j1))
                  ∈ (j1, (j1, mean_similarity sim n j1)) :: p3 :: rest) by left.
    apply Hall1 in Hin. apply precedes_scores in Hin as [Hlt|[_ Hlt]].
    + by apply Qlt_irrefl in Hlt.
    + lia.
  - intros j Hj Hne1 Hne2. apply precedes_scores, Hall2.
    assert (Hin : (j, (j, mean_similarity sim n j))
                  ∈ (j1, (j1, mean_similarity sim n j1))
                    :: (j2, (j2, mean_similarity sim n j2)) :: p3 :: rest)
      by (by apply Hmem, section_scores_lookup).
    apply elem_of_cons in Hin as [[= ->]|Hin]; [done|].
    apply elem_of_cons in Hin as [[= ->]|Hin]; done.
Qed.

Lemma Qlt_bool_iff a b : Qlt_bool a b = true <-> (a < b)%Q.
Proof.
  unfold Qlt_bool. rewrite negb_true_iff. apply Qle_bool_false.
Qed.

(** C4.  With three sections or more: when the vectoriser fails the
    list is returned as it is; otherwise, with the mean of a section the
    mean of its similarities to the other sections, [k] the position of
    the lowest mean (the earliest such position) and [k2] the position of
    the second lowest, the section at [k] alone is removed when the lowest
    mean is below 0.3 times the second lowest, the other sections staying
    in their order, and the list is returned as it is when it is not.  One
    section at most is removed. *)
Theorem coherence_outlier h sections :
  3 <= length sections ->
  let n := length sections in
  let out := ensure_content_coherence tfidf_pairwise h sections in
  length sections - 1 <= length out /\
  match tfidf_pairwise (map (fun l => content (h l)) sections) with
  | None => out = sections
  | Some sim =>
      let mean := mean_to_others sim n in
      exists k k2,
        k < n /\ k2 < n /\ k <> k2 /\
        (forall j, j < n -> j <> k -> ranks_lower mean k j) /\
        (forall j, j < n -> j <> k -> j <> k2 -> ranks_lower mean k2 j) /\
        ((mean k < Float.mul (Float.rnd (3 # 10)) (mean k2))%Q -> out = delete k sections) /\
        (~ (mean k < Float.mul (Float.rnd (3 # 10)) (mean k2))%Q -> out = sections)
  end.
Proof.
  intros Hlen n out. subst n out. unfold ensure_content_coherence.
  rewrite (proj2 (Nat.leb_gt _ _)) by lia.
  destruct (tfidf_pairwise _) as [sim|]; [|split; [lia|done]].
  destruct (sorted_scores_head sim (length sections) Hlen)
    as (k & k2 & tail & -> & Htail & Hk & Hk2 & Hne & Hlow & Hsecond).
  destruct tail as [|p3 tail]; [done|].
  assert (Hmean : forall j, j < length sections ->
            mean_similarity sim (length sections) j = mean_to_others sim (length sections) j).
  { intros j Hj. apply mean_similarity_others; lia. }
  assert (Hranks : forall i j, i < length sections -> j < length sections ->
            ranks_lower (mean_similarity sim (length sections)) i j ->
            ranks_lower (mean_to_others sim (length sections)) i j).
  { intros i j Hi Hj. unfold ranks_lower. by rewrite !Hmean. }
  destruct (Qlt_bool _ _) eqn:E.
  - rewrite without_index_delete. split.
    + rewrite length_delete; [done|]. by apply lookup_lt_is_Some.
    + exists k, k2. cbv zeta. rewrite <- !Hmean by done.
      repeat split; try done; [by auto..|].
      intros Hnot. apply Qlt_bool_iff in E. done.
  - split; [lia|]. exists k, k2. cbv zeta. rewrite <- !Hmean by done.
    repeat split; try done; [by auto..|].
    intros Hlt%Qlt_bool_iff. congruence.
Qed.
End WithVectoriser.

End CoherenceFacts.

(** ** [validate_content_against_title] *)

Module ValidationFacts.
Import Py Sorted Props SortedFacts StoreFacts Validation.

Section WithClient.
Variable client : Type.
Variable chat : client -> str -> str -> str -> response * client.
Variables (model paper_title : str).

Local Abbreviation pass_from := (Validation.pass_from client chat model paper_title).


Lemma pass_from_cons c h validated l later :
  pass_from c h validated (l :: later)
  = pass_from (snd (request client chat c model paper_title (h l)))
      (fst (judge (h, validated) l (fst (request client chat c model paper_title (h l)))))
      (snd (judge (h, validated) l (fst (request client chat c model paper_title (h l)))))
      later.
Proof.
  unfold Validation.pass_from. cbn [foldl]. unfold validate_step at 2.
  destruct (request client chat c model paper_title (h l)) as [r c'].
  cbn [fst snd]. by destruct (judge (h, validated) l r).
Qed.

Lemma judge_fst h validated l r : fst (judge (h, validated) l r) = fst (judge (h, []) l r).
Proof.
  unfold judge. destruct r as [|text]; [done|]. by destruct (parse_score text).
Qed.

(** A reply without a score leaves the store as it is and keeps the
    section. *)
Lemma judge_no_score h validated l r :
  no_score r -> judge (h, validated) l r = (h, validated ++ [l]).
Proof.
  unfold judge, no_score. destruct r as [|text]; [done|]. by intros ->.
Qed.

Lemma judge_other h validated l r l' :
  l <> l' -> fst (judge (h, validated) l r) l' = h l'.
Proof.
  intros Hne. unfold judge. destruct r as [|text]; [done|].
  destruct (parse_score text); [|done]. cbn [fst]. by apply store_insert_ne.
Qed.

Lemma judge_keeps h validated l r x :
  x ∈ validated -> x ∈ snd (judge (h, validated) l r).
Proof.
  intros Hx. unfold judge. destruct r as [|text]; cbn [snd].
  - apply elem_of_app. by left.
  - destruct (parse_score text) as [score|]; cbn [snd].
    + destruct (Qle_bool 6 score); [apply elem_of_app; by left|done].
    + apply elem_of_app. by left.
Qed.

(** A section kept is kept to the end of the loop. *)
Lemma pass_from_keeps sections : forall c h validated x,
  x ∈ validated -> x ∈ snd (snd (pass_from c h validated sections)).
Proof.
  induction sections as [|l later IH]; intros c h validated x Hx; [done|].
  rewrite pass_from_cons. apply IH. by apply judge_keeps.
Qed.

(** The fail-open rule of the loop. *)
Lemma pass_from_fail_open sections : forall c h validated i l r,
  sections !! i = Some l ->
  transcript client chat c paper_title h sections model !! i = Some r ->
  no_score r ->
  l ∈ snd (snd (pass_from c h validated sections)).
Proof.
  induction sections as [|x later IH]; intros c h validated i l r Hl Hr Hno; [done|].
  rewrite pass_from_cons. cbn [transcript] in Hr.
  destruct (request client chat c model paper_title (h x)) as [r0 c'] eqn:Hreq.
  cbn [fst snd]. destruct i as [|i]; simpl in Hl, Hr.
  - injection Hl as ->. injection Hr as ->.
    apply pass_from_keeps. rewrite judge_no_score by done.
    apply elem_of_app. right. by left.
  - rewrite judge_fst. by apply (IH _ _ _ i l r).
Qed.

(** A section that came without a relevance, and whose every request
    gave no score, leaves the loop without a relevance. *)
Lemma pass_from_unannotated sections : forall c h validated l,
  title_relevance (h l) = None ->
  (forall i r, sections !! i = Some l ->
     transcript client chat c paper_title h sections model !! i = Some r -> no_score r) ->
  title_relevance (fst (snd (pass_from c h validated sections)) l) = None.
Proof.
  induction sections as [|x later IH]; intros c h validated l Hnone Hall; [done|].
  rewrite pass_from_cons.
  cbn [transcript] in Hall.
  destruct (request client chat c model paper_title (h x)) as [r0 c'] eqn:Hreq.
  cbn [fst snd]. apply IH.
  - destruct (decide (x = l)) as [->|Hne].
    + rewrite judge_no_score; [done|]. by apply (Hall 0).
    + by rewrite judge_other.
  - intros i r Hl Hr. apply (Hall (S i) r); [done|].
    rewrite judge_fst in Hr. exact Hr.
Qed.

Lemma validate_pass_from c h sections :
  validate_pass client chat c paper_title h sections model = pass_from c h [] sections.
Proof. done. Qed.

(** The floor of the validator: with three sections or more, three come
    out at least, and when the loop keeps fewer than three the three that
    rank first by title relevance come out. *)
Lemma validate_floor c h sections :
  3 <= length sections ->
  let r := validate_content_against_title client chat c paper_title h sections model in
  3 <= length (snd (snd r)) /\
  (length (snd (snd (validate_pass client chat c paper_title h sections model))) < 3 ->
   top3_of (get_title_relevance (fst (snd r))) sections (snd (snd r))).
Proof.
  intros Hlen. unfold validate_content_against_title.
  destruct (validate_pass _ _ _ _ _ _ _) as [c1 [h1 kept]]. cbn [snd].
  destruct ((length kept <? 3) && (3 <=? length sections)) eqn:E; cbn [fst snd].
  - split; [|intros _; by apply take3_sorted_reverse].
    rewrite length_take. unfold sorted_reverse. rewrite sorted_by_length. lia.
  - apply andb_false_iff in E as [E|E].
    + apply Nat.ltb_ge in E. split; [done|lia].
    + apply Nat.leb_gt in E. lia.
Qed.

(** C7.  A section whose request fails, or whose reply holds no number,
    is kept by the loop; it is in the result whenever the top-3 fallback
    does not replace what the loop kept. *)
Theorem validate_fail_open c h sections i l r :
  sections !! i = Some l ->
  transcript client chat c paper_title h sections model !! i = Some r ->
  no_score r ->
  let kept := snd (snd (validate_pass client chat c paper_title h sections model)) in
  l ∈ kept /\
  (~ (length kept < 3 /\ 3 <= length sections) ->
   l ∈ snd (snd (validate_content_against_title client chat c paper_title h sections model))).
Proof.
  intros Hl Hr Hno kept.
  assert (Hkept : l ∈ kept).
  { unfold kept. rewrite validate_pass_from. by apply (pass_from_fail_open _ _ _ _ i l r). }
  split; [done|]. intros Hnot. unfold validate_content_against_title.
  subst kept. destruct (validate_pass _ _ _ _ _ _ _) as [c1 [h1 kept]]. cbn [snd] in *.
  destruct ((length kept <? 3) && (3 <=? length sections)) eqn:E; [|done].
  apply andb_prop in E as [E1%Nat.ltb_lt E2%Nat.leb_le]. exfalso. by apply Hnot.
Qed.

(** [float] gives the nearest double: a numeral just below 6 reads as 6
    and stands the test of the loop, a numeral just above 3 reads as 3. *)
Example float_of_nearest_double :
  parse_score (s "5.99999999999999999") = Some 6%Q /\
  keeps (Reply (s "5.99999999999999999")) = true /\
  parse_score (s "3.00000000000000001") = Some 3%Q /\
  parse_score (s "Score: 7.5/10") = Some (15 # 2).
Proof. repeat split; vm_compute; reflexivity. Qed.

Lemma no_score_reply_score r : no_score r <-> reply_score r = None.
Proof. by destruct r. Qed.

Lemma transcript_length sections : forall c h,
  length (transcript client chat c paper_title h sections model) = length sections.
Proof.
  induction sections as [|x later IH]; intros c h; [done|]. cbn [transcript].
  destruct (request client chat c model paper_title (h x)) as [r c']. simpl. by rewrite IH.
Qed.

Lemma judge_survivors h validated l r :
  snd (judge (h, validated) l r) = validated ++ (if keeps r then [l] else []).
Proof.
  unfold judge, keeps, reply_score. destruct r as [|text]; [done|].
  destruct (parse_score text) as [score|]; [|done]. cbn [snd].
  destruct (Qle_bool 6 score); [done|by rewrite app_nil_r].
Qed.

Lemma survivors_cons l r sections replies :
  survivors (l :: sections) (r :: replies)
  = (if keeps r then [l] else []) ++ survivors sections replies.
Proof.
  unfold survivors. cbn [zip zip_with]. rewrite filter_cons. cbn [snd].
  by destruct (keeps r).
Qed.

(** The loop keeps the sections whose reply stands its test. *)
Lemma pass_from_survivors sections : forall c h validated,
  snd (snd (pass_from c h validated sections))
  = validated ++ survivors sections (transcript client chat c paper_title h sections model).
Proof.
  induction sections as [|x later IH]; intros c h validated.
  - by rewrite app_nil_r.
  - rewrite pass_from_cons. cbn [transcript].
    destruct (request client chat c model paper_title (h x)) as [r c']. cbn [fst snd].
    rewrite IH, judge_survivors, survivors_cons, (judge_fst h validated x r).
    by rewrite app_assoc.
Qed.

Lemma judge_title_relevance h validated l r l' :
  title_relevance (fst (judge (h, validated) l r) l')
  = match (if decide (l = l') then reply_score r else None) with
    | Some score => Some score
    | None => title_relevance (h l')
    end.
Proof.
  unfold judge, reply_score. destruct r as [|text]; [by destruct (decide _)|].
  destruct (parse_score text) as [score|]; [|by destruct (decide _)]. cbn [fst].
  destruct (decide (l = l')) as [->|Hne].
  - by rewrite store_insert_eq.
  - by rewrite store_insert_ne.
Qed.

(** The relevance a section has once the loop is over. *)
Lemma pass_from_title_relevance sections : forall c h validated l,
  title_relevance (fst (snd (pass_from c h validated sections)) l)
  = match last (omap (fun p => if decide (fst p = l) then reply_score (snd p) else None)
                  (zip sections (transcript client chat c paper_title h sections model))) with
    | Some score => Some score
    | None => title_relevance (h l)
    end.
Proof.
  induction sections as [|x later IH]; intros c h validated l; [done|].
  rewrite pass_from_cons. cbn [transcript].
  destruct (request client chat c model paper_title (h x)) as [r c']. cbn [fst snd].
  rewrite IH, (judge_fst h validated x r), judge_title_relevance.
  cbn [zip zip_with omap list_omap fst snd].
  destruct (if decide (x = l) then reply_score r else None) as [first|]; [|done].
  rewrite last_cons. by destruct (last _).
Qed.

Lemma validate_pass_relevance c h sections l :
  get_title_relevance (fst (snd (validate_pass client chat c paper_title h sections model))) l
  = title_score h sections (transcript client chat c paper_title h sections model) l.
Proof.
  unfold get_title_relevance, title_score. rewrite validate_pass_from, pass_from_title_relevance.
  by destruct (last _).
Qed.

Lemma validate_store_pass c h sections :
  fst (snd (validate_content_against_title client chat c paper_title h sections model))
  = fst (snd (validate_pass client chat c paper_title h sections model)).
Proof.
  unfold validate_content_against_title.
  destruct (validate_pass _ _ _ _ _ _ _) as [c1 [h1 kept]]. by destruct (_ && _).
Qed.

(** The floor of the validator, on the scores that the replies gave. *)
Lemma validate_floor_ranked c h sections :
  3 <= length sections ->
  let replies := transcript client chat c paper_title h sections model in
  let out := snd (snd (validate_content_against_title client chat c paper_title h
                         sections model)) in
  3 <= length out /\
  (length (survivors sections replies) < 3 ->
   top3_of (title_score h sections replies) sections out).
Proof.
  intros Hlen replies out. destruct (validate_floor c h sections Hlen) as [Hout Htop].
  split; [done|]. intros Hlt. subst out replies.
  apply (top3_of_ext (get_title_relevance
           (fst (snd (validate_content_against_title client chat c paper_title h
                        sections model))))).
  - intros l _. rewrite validate_store_pass. apply validate_pass_relevance.
  - apply Htop. by rewrite validate_pass_from, pass_from_survivors.
Qed.

Lemma no_scores_for (l : loc) (sections : list loc) : forall replies,
  (forall i rep, sections !! i = Some l -> replies !! i = Some rep -> no_score rep) ->
  omap (fun p => if decide (fst p = l) then reply_score (snd p) else None)
    (zip sections replies) = [].
Proof.
  induction sections as [|x later IH]; intros replies Hall; [done|].
  destruct replies as [|r replies]; [done|]. cbn [zip zip_with omap list_omap fst snd].
  rewrite IH by (intros i rep Hi Hr; by apply (Hall (S i) rep)).
  destruct (decide (x = l)) as [->|Hne]; [|done].
  assert (Hr : no_score r) by (by apply (Hall 0 r)).
  apply no_score_reply_score in Hr. by rewrite Hr.
Qed.

(** C10, as amended.  When the fallback fires, the result is the first
    three of the whole input list sorted by decreasing title relevance,
    which is for each section the score of the last reply that gave one,
    failing that the relevance the section came with, failing that 0.  A
    section that came without a relevance and whose requests all failed or
    gave no number ranks as 0; it is kept by the loop, and it is not in the
    result when three positions of the list hold sections with a relevance
    above 0. *)
Theorem title_fallback_ranking c h sections :
  let replies := transcript client chat c paper_title h sections model in
  let key := title_score h sections replies in
  let out := snd (snd (validate_content_against_title client chat c paper_title h
                         sections model)) in
  length (survivors sections replies) < 3 -> 3 <= length sections ->
  out = take 3 (sorted_reverse key sections) /\
  top3_of key sections out /\
  forall l,
    title_relevance (h l) = None ->
    (forall i rep, sections !! i = Some l -> replies !! i = Some rep -> no_score rep) ->
    key l = 0%Q /\
    (l ∈ sections -> l ∈ survivors sections replies) /\
    (forall j1 j2 j3 x1 x2 x3,
       j1 < j2 < j3 ->
       sections !! j1 = Some x1 -> sections !! j2 = Some x2 -> sections !! j3 = Some x3 ->
       (0 < key x1)%Q -> (0 < key x2)%Q -> (0 < key x3)%Q ->
       l ∉ out).
Proof.
  intros replies key out Hlt Hge.
  assert (Hkept : snd (snd (validate_pass client chat c paper_title h sections model))
                  = survivors sections replies).
  { by rewrite validate_pass_from, pass_from_survivors. }
  assert (Hout : out = take 3 (sorted_reverse key sections)).
  { subst out key. rewrite <- Hkept in Hlt.
    rewrite (sorted_reverse_ext _
               (get_title_relevance
                  (fst (snd (validate_pass client chat c paper_title h sections model)))))
      by (intros l; symmetry; apply validate_pass_relevance).
    unfold validate_content_against_title.
    destruct (validate_pass _ _ _ _ _ _ _) as [c1 [h1 kept]]. cbn [fst snd] in *.
    apply Nat.ltb_lt in Hlt. apply Nat.leb_le in Hge. by rewrite Hlt, Hge. }
  assert (Htop : top3_of key sections out).
  { rewrite Hout. by apply take3_sorted_reverse. }
  split; [done|]. split; [done|]. intros l Hnone Hall.
  assert (Hkey : key l = 0%Q).
  { subst key. unfold title_score. rewrite no_scores_for by done. by rewrite Hnone. }
  split; [done|]. split.
  - intros (i & Hi)%list_elem_of_lookup_1.
    assert (Hrep : is_Some (replies !! i)).
    { apply lookup_lt_is_Some. subst replies. rewrite transcript_length.
      by apply lookup_lt_is_Some. }
    destruct Hrep as [rep Hrep]. rewrite <- Hkept, validate_pass_from.
    apply (pass_from_fail_open _ _ _ _ i l rep); [done..|]. by apply (Hall i).
  - intros j1 j2 j3 x1 x2 x3 Hj X1 X2 X3 K1 K2 K3.
    apply (top3_of_excludes key sections out l j1 j2 j3 x1 x2 x3); try done;
      by rewrite Hkey.
Qed.
End WithClient.

End ValidationFacts.

(** ** The floor of both filters, and the properties at work *)


Module PipelineFacts.
Import Py Sorted Props Topic Coherence Validation Examples.
Import SortedFacts TopicFacts CoherenceFacts ValidationFacts.

(** The floor of the filter, on the similarities that the loop
    computed. *)
Lemma filter_floor_ranked (tfidf_cosine : str -> str -> option Q) (topics : topic_dict)
    (similarity_threshold : Q) (h : store) (sections : list loc) :
  3 <= length sections ->
  let similarity := fun l => compute_topic_similarity tfidf_cosine topics (content (h l)) in
  let out := snd (filter_irrelevant_sections tfidf_cosine h sections topics
                    similarity_threshold) in
  3 <= length out /\
  (length (filter (fun l => Is_true (Qle_bool similarity_threshold (similarity l))) sections) < 3 ->
   top3_of similarity sections out).
Proof.
  intros Hlen similarity out.
  destruct (filter_floor tfidf_cosine topics similarity_threshold h sections Hlen)
    as [Hout Htop].
  split; [done|]. intros Hlt. subst out.
  apply (top3_of_ext (get_topic_similarity
           (fst (filter_irrelevant_sections tfidf_cosine h sections topics
                   similarity_threshold)))).
  - intros l Hl.
    destruct (filter_result tfidf_cosine topics similarity_threshold h sections)
      as (h1 & out1 & -> & Hh1 & _). cbn [fst]. unfold get_topic_similarity.
    rewrite Hh1. unfold Topic.annotated. by rewrite decide_True.
  - apply Htop. by rewrite filter_pass_snd.
Qed.

(** C3.  With three sections or more in the input, both
    [filter_irrelevant_sections] and [validate_content_against_title]
    return three sections at least; when fewer than three sections stand
    the test of the loop, they return the three sections of the input that
    rank first by score, ties going to the earlier position.  The score is
    the similarity of the content of the section to the topics for the
    filter; for the validation it is the score that the last reply for the
    section gave, failing that the relevance the section came with,
    failing that 0. *)
Theorem floor_guarantee (tfidf_cosine : str -> str -> option Q) (topics : topic_dict)
    (similarity_threshold : Q) (client : Type)
    (chat : client -> str -> str -> str -> response * client) (c : client)
    (model paper_title : str) (h : store) (sections : list loc) :
  3 <= length sections ->
  (let similarity := fun l => compute_topic_similarity tfidf_cosine topics (content (h l)) in
   let out := snd (filter_irrelevant_sections tfidf_cosine h sections topics
                     similarity_threshold) in
   3 <= length out /\
   (length (filter (fun l => Is_true (Qle_bool similarity_threshold (similarity l)))
              sections) < 3 ->
    top3_of similarity sections out)) /\
  (let replies := transcript client chat c paper_title h sections model in
   let out := snd (snd (validate_content_against_title client chat c paper_title h
                          sections model)) in
   3 <= length out /\
   (length (survivors sections replies) < 3 ->
    top3_of (title_score h sections replies) sections out)).
Proof.
  intros Hlen. split.
  - by apply filter_floor_ranked.
  - by apply validate_floor_ranked.
Qed.

(** The floor at work: no similarity reaches the threshold of the filter,
    which returns the three sections with the longest content; the
    validator keeps one section of four and returns the three with the
    highest scores. *)
Lemma floor_guarantee_witness :
  (top3_of (fun l => compute_topic_similarity by_length [(s "topic", 1%Q)]
                       (content (graded_store l)))
     [1; 2; 3; 4; 5]
     (snd (filter_irrelevant_sections by_length graded_store [1; 2; 3; 4; 5]
             [(s "topic", 1%Q)] (Float.rnd (15 # 100)))) /\
   snd (filter_irrelevant_sections by_length graded_store [1; 2; 3; 4; 5]
          [(s "topic", 1%Q)] (Float.rnd (15 # 100))) = [5; 4; 3]) /\
  (top3_of
     (title_score plain_store [0; 1; 2; 3]
        (transcript nat (scripted low_scores) 0 (s "Title") plain_store [0; 1; 2; 3]
           (s "gpt-4o")))
     [0; 1; 2; 3]
     (snd (snd (validate_content_against_title nat (scripted low_scores) 0 (s "Title")
                  plain_store [0; 1; 2; 3] (s "gpt-4o")))) /\
   snd (snd (validate_content_against_title nat (scripted low_scores) 0 (s "Title")
               plain_store [0; 1; 2; 3] (s "gpt-4o"))) = [1; 2; 3]).
Proof.
  split.
  - split; [|vm_compute; reflexivity].
    destruct (floor_guarantee by_length [(s "topic", 1%Q)] (Float.rnd (15 # 100)) nat
                (scripted low_scores) 0 (s "gpt-4o") (s "Title") graded_store
                [1; 2; 3; 4; 5]) as [[_ Hf] _].
    + simpl. lia.
    + apply Hf. vm_compute. lia.
  - split; [|vm_compute; reflexivity].
    destruct (floor_guarantee by_length [(s "topic", 1%Q)] (Float.rnd (15 # 100)) nat
                (scripted low_scores) 0 (s "gpt-4o") (s "Title") plain_store
                [0; 1; 2; 3]) as [_ [_ Hv]].
    + simpl. lia.
    + apply Hv. vm_compute. lia.
Defined.

(** The fail-open rule at work: the first request fails, its section is
    kept and is in the result. *)
Lemma validate_fail_open_witness :
  0 ∈ snd (snd (validate_pass nat (scripted high_scores) 0 (s "Title") plain_store
                  [0; 1; 2; 3] (s "gpt-4o"))) /\
  0 ∈ snd (snd (validate_content_against_title nat (scripted high_scores) 0 (s "Title")
                  plain_store [0; 1; 2; 3] (s "gpt-4o"))).
Proof.
  destruct (validate_fail_open nat (scripted high_scores) (s "gpt-4o") (s "Title") 0
              plain_store [0; 1; 2; 3] 0 0 Failed) as [Hkept Hout].
  - reflexivity.
  - reflexivity.
  - exact I.
  - split; [exact Hkept|]. apply Hout. vm_compute. lia.
Defined.

(** The fallback at work: the first request fails and the section comes
    without a relevance; the loop keeps it, alone; the replies for the
    three other sections give 5, 4 and 3, and the result is these three
    sections, without the one that the loop kept. *)
Lemma title_fallback_ranking_witness :
  let replies := transcript nat (scripted low_scores) 0 (s "Title") plain_store
                   [0; 1; 2; 3] (s "gpt-4o") in
  let out := snd (snd (validate_content_against_title nat (scripted low_scores) 0
                         (s "Title") plain_store [0; 1; 2; 3] (s "gpt-4o"))) in
  out = [1; 2; 3] /\
  title_score plain_store [0; 1; 2; 3] replies 0 = 0%Q /\
  0 ∈ survivors [0; 1; 2; 3] replies /\
  0 ∉ out.
Proof.
  intros replies out.
  destruct (title_fallback_ranking nat (scripted low_scores) (s "gpt-4o") (s "Title") 0
              plain_store [0; 1; 2; 3]) as (Hout & _ & Hzero).
  - vm_compute. lia.
  - simpl. lia.
  - destruct (Hzero 0) as (Hkey & Hkept & Hleft).
    + reflexivity.
    + intros [|[|[|[|i]]]] rep Hi Hrep; try discriminate Hi.
      injection Hrep as <-. exact I.
    + split; [subst out; rewrite Hout; vm_compute; reflexivity|].
      split; [exact Hkey|]. split.
      * apply Hkept. by left.
      * apply (Hleft 1 2 3 1 2 3); try reflexivity. lia.
Defined.

(** C10, the claim as stated fails: a section whose request fails ranks
    by the relevance it came with, when it came with one.  Section 0 comes
    with a relevance of 9, its request fails, the other replies give 5, 4
    and 3: the fallback fires, section 0 ranks as 9, first, and is in the
    result. *)
Lemma stale_relevance_ranks_first :
  let replies := transcript nat (scripted low_scores) 0 (s "Title") stale_store
                   [0; 1; 2; 3] (s "gpt-4o") in
  let r := validate_content_against_title nat (scripted low_scores) 0 (s "Title")
             stale_store [0; 1; 2; 3] (s "gpt-4o") in
  replies !! 0 = Some Failed /\
  survivors [0; 1; 2; 3] replies = [0] /\
  get_title_relevance (fst (snd r)) 0 = 9%Q /\
  title_score stale_store [0; 1; 2; 3] replies 0 <> 0%Q /\
  snd (snd r) = [0; 1; 2].
Proof.
  repeat split; try (vm_compute; reflexivity).
  intros H. vm_compute in H. discriminate.
Qed.

(** Two sections come back as they are. *)
Lemma coherence_small_witness :
  ensure_content_coherence first_apart plain_store [0; 1] = [0; 1].
Proof. apply (coherence_small first_apart plain_store [0; 1]). simpl. lia. Defined.

(** The outlier at work: the first of three sections has nothing in common
    with the two others, which are alike; the means are 0, 1/2 and 1/2,
    and the first section is removed. *)
Lemma coherence_outlier_witness :
  ensure_content_coherence first_apart plain_store [0; 1; 2] = [1; 2] /\
  map (mean_to_others (fun i j => if (i =? 0) || (j =? 0) then 0%Q else 1%Q) 3) [0; 1; 2]
  = [0%Q; 1 # 2; 1 # 2] /\
  exists k k2,
    k < 3 /\ k2 < 3 /\ k <> k2 /\
    ((mean_to_others (fun i j => if (i =? 0) || (j =? 0) then 0%Q else 1%Q) 3 k
      < Float.mul (Float.rnd (3 # 10))
          (mean_to_others (fun i j => if (i =? 0) || (j =? 0) then 0%Q else 1%Q) 3 k2))%Q ->
     ensure_content_coherence first_apart plain_store [0; 1; 2] = delete k [0; 1; 2]).
Proof.
  split; [vm_compute; reflexivity|]. split; [vm_compute; reflexivity|].
  destruct (coherence_outlier first_apart plain_store [0; 1; 2]) as [_ Hout].
  - simpl. lia.
  - cbv zeta in Hout. cbn [first_apart map length] in Hout.
    destruct Hout as (k & k2 & Hk & Hk2 & Hne & _ & _ & Hremoved & _).
    exists k, k2. repeat split; done.
Defined.

(** At the boundary the comparison is the comparison of the doubles: with
    similarities 0.15, 0.15 and 0.85 the means are 0.15, 0.5 and 0.5, and
    0.15 is not below [0.3 * 0.5]; no section is removed. *)
Example coherence_boundary :
  ensure_content_coherence
    (fun _ => Some (fun i j => if (i + j =? 3) then Float.rnd (85 # 100)
                               else Float.rnd (15 # 100)))
    plain_store [0; 1; 2] = [0; 1; 2].
Proof. vm_compute. reflexivity. Qed.

End PipelineFacts.


(** * Further properties *)

(** ** The matcher, substitution and line feeds *)

Module SubFacts.
Import Py Re Sub ReFacts.

Lemma star_loop_suffix greedy body k :
  (forall k' st res, body k' st = Some res ->
     exists st1, rest st1 `suffix_of` rest st /\ k' st1 = Some res) ->
  forall fuel st res,
    star_loop greedy body k fuel st = Some res ->
    exists st1, rest st1 `suffix_of` rest st /\ k st1 = Some res.
Proof.
  intros Hbody. induction fuel as [|fuel IHf]; intros st res H; simpl in H; [exists st; by split|].
  assert (Hagain :
    body (fun st1 => if pos st <? pos st1 then star_loop greedy body k fuel st1 else None) st
    = Some res -> exists st1, rest st1 `suffix_of` rest st /\ k st1 = Some res).
  { intros Ha. apply Hbody in Ha as (st1 & Hs1 & Ha).
    destruct (pos st <? pos st1); [|done].
    apply IHf in Ha as (st2 & Hs2 & Ha). exists st2. split; [by etrans|done]. }
  unfold orelse in H. destruct greedy.
  - destruct (body _ st) eqn:E; [injection H as <-; by apply Hagain|exists st; by split].
  - destruct (k st) eqn:E; [injection H as <-; exists st; by split|by apply Hagain].
Qed.

(** A match hands the continuation what is left of the text it got. *)
Lemma rmatch_suffix icase r : forall k st res,
  rmatch icase r k st = Some res ->
  exists st1, rest st1 `suffix_of` rest st /\ k st1 = Some res.
Proof.
  induction r as [|c|p|r1 IH1 r2 IH2|r1 IH1 r2 IH2|greedy r1 IH1|i r1 IH1| |];
    intros k st res H; cbn [rmatch] in H.
  - exists st. by split.
  - destruct (rest st) as [|x t] eqn:Hr; [done|]. destruct (char_ok icase c x); [|done].
    eexists. split; [|exact H]. simpl. by apply suffix_cons_r.
  - destruct (rest st) as [|x t] eqn:Hr; [done|]. destruct (class_ok icase p x); [|done].
    eexists. split; [|exact H]. simpl. by apply suffix_cons_r.
  - apply IH1 in H as (st1 & Hs1 & H). apply IH2 in H as (st2 & Hs2 & H).
    exists st2. split; [by etrans|done].
  - unfold orelse in H. destruct (rmatch icase r1 k st) eqn:E.
    + injection H as <-. by apply IH1 in E.
    + by apply IH2 in H.
  - by apply (star_loop_suffix greedy (rmatch icase r1) k IH1) in H.
  - apply IH1 in H as (st1 & Hs1 & H). eexists. split; [|exact H]. done.
  - exists st. split; [done|]. by destruct (pos st =? 0).
  - exists st. split; [done|].
    destruct (rest st) as [|c [|? ?]]; [done| |done]. by destruct (Ascii.eqb c nl).
Qed.

(** Only a line feed matches the line feed, also when the case is
    ignored. *)
Lemma char_ok_nl icase x : char_ok icase nl x = true -> x = nl.
Proof.
  destruct icase; unfold char_ok; intros H.
  - destruct x as [[] [] [] [] [] [] [] []]; vm_compute in H; try discriminate; reflexivity.
  - by apply Ascii.eqb_eq in H.
Qed.

(** A pattern that needs a line feed matches only where one is left. *)
Lemma rmatch_needs_nl icase r : needs_nl r = true ->
  forall k st res, rmatch icase r k st = Some res -> nl ∈ rest st.
Proof.
  induction r as [|c|p|r1 IH1 r2 IH2|r1 IH1 r2 IH2|greedy r1 IH1|i r1 IH1| |];
    intros Hn k st res H; cbn [needs_nl] in Hn; try discriminate; cbn [rmatch] in H.
  - apply Ascii.eqb_eq in Hn as ->.
    destruct (rest st) as [|x t]; [done|]. destruct (char_ok icase nl x) eqn:E; [|done].
    apply char_ok_nl in E as ->. left.
  - apply orb_prop in Hn as [Hn|Hn]; [by apply (IH1 Hn _ _ _ H)|].
    apply rmatch_suffix in H as (st1 & [pre Hs] & H).
    apply (IH2 Hn) in H. rewrite Hs. apply elem_of_app. by right.
  - apply andb_prop in Hn as [Hn1 Hn2]. unfold orelse in H.
    destruct (rmatch icase r1 k st) eqn:E; [by apply (IH1 Hn1 _ _ _ E)|by apply (IH2 Hn2 _ _ _ H)].
  - by apply (IH1 Hn _ _ _ H).
Qed.

Lemma match_at_needs_nl icase r p x :
  needs_nl r = true -> nl ∉ x -> match_at icase r p x = None.
Proof.
  intros Hn Hx. unfold match_at. destruct (rmatch _ _ _ _) eqn:E; [|done].
  apply (rmatch_needs_nl icase r Hn) in E. done.
Qed.

Lemma search_from_needs_nl icase r : needs_nl r = true ->
  forall x p, nl ∉ x -> search_from icase r p x = None.
Proof.
  intros Hn. induction x as [|c x IH]; intros p Hx; cbn [search_from];
    rewrite match_at_needs_nl by done; [done|].
  apply IH. intros Hin. apply Hx. by right.
Qed.

Lemma finditer_from_needs_nl icase r : needs_nl r = true ->
  forall x skip p, nl ∉ x -> finditer_from icase r skip p x = [].
Proof.
  intros Hn. induction x as [|c x IH]; intros skip p Hx.
  - destruct skip; cbn [finditer_from]; [|done]. by rewrite match_at_needs_nl.
  - assert (Hx' : nl ∉ x) by (intros Hin; apply Hx; by right).
    destruct skip; cbn [finditer_from]; [|by apply IH].
    rewrite match_at_needs_nl by done. by apply IH.
Qed.

Lemma search_ahead_from_needs_nl icase r ahead : needs_nl ahead = true ->
  forall x p, nl ∉ x -> search_ahead_from icase r ahead p x = None.
Proof.
  intros Hn. assert (Hat : forall p x, nl ∉ x -> match_at_ahead icase r ahead p x = None).
  { intros p x Hx. unfold match_at_ahead. destruct (rmatch _ _ _ _) eqn:E; [|done].
    apply rmatch_suffix in E as (st1 & [pre Hs] & E). unfold look_ahead in E.
    destruct (rmatch icase ahead Some st1) eqn:E1; [|done].
    apply (rmatch_needs_nl icase ahead Hn) in E1. simpl in Hs.
    exfalso. apply Hx. rewrite Hs. apply elem_of_app. by right. }
  induction x as [|c x IH]; intros p Hx; cbn [search_ahead_from]; rewrite Hat by done; [done|].
  apply IH. intros Hin. apply Hx. by right.
Qed.

(** A repetition followed by something that always matches always
    matches. *)
Lemma star_loop_total greedy body k :
  (forall st, is_Some (k st)) -> forall fuel st, is_Some (star_loop greedy body k fuel st).
Proof.
  intros Hk fuel st. destruct fuel as [|fuel]; simpl; [done|].
  destruct (Hk st) as [res Hres]. unfold orelse. rewrite Hres.
  destruct greedy; [|done]. by destruct (body _ st).
Qed.

(** What a substitution leaves of the text: the characters at which the
    pattern has no match that takes them. *)
Lemma sub_from_drops icase r repl (P : ascii -> Prop) :
  (forall q y c, P c -> exists m, match_at icase r q (c :: y) = Some m /\ m_end m <> q) ->
  Forall (fun c => ~ P c) repl ->
  forall x skip p, Forall (fun c => ~ P c) (sub_from icase r repl skip p x).
Proof.
  intros Hmatch Hrepl. induction x as [|c x IH]; intros skip p.
  - destruct skip; cbn [sub_from]; [|constructor].
    destruct (match_at icase r p []); [by rewrite app_nil_r|constructor].
  - destruct skip; cbn [sub_from]; [|apply IH].
    destruct (match_at icase r p (c :: x)) as [m|] eqn:E.
    + apply Forall_app. split; [done|].
      destruct (m_end m =? p) eqn:Ee; [|apply IH].
      apply Nat.eqb_eq in Ee. constructor; [|apply IH].
      intros HP. destruct (Hmatch p x c HP) as (m' & Hm' & Hne). congruence.
    + constructor; [|apply IH].
      intros HP. destruct (Hmatch p x c HP) as (m' & Hm' & Hne). congruence.
Qed.

End SubFacts.

(** ** [sanitize_filename] *)

Module UtilsFacts.
Import Py Re Sub Utils SubFacts.

Lemma sub_from_class p repl : forall x q,
  sub_from false (Class p) repl 0 q x = concat (map (fun c => if p c then repl else [c]) x).
Proof.
  induction x as [|c x IH]; intros q; [done|].
  cbn [sub_from map concat]. unfold match_at. cbn [rmatch rest class_ok].
  destruct (p c); cbn [fmap option_fmap option_map m_end pos].
  - rewrite (proj2 (Nat.eqb_neq (S q) q)) by lia.
    replace (S q - q - 1) with 0 by lia. by rewrite IH.
  - by rewrite IH.
Qed.

Lemma sanitize_filename_map name : sanitize_filename name = underscored name.
Proof.
  unfold sanitize_filename, sub, underscored. rewrite sub_from_class.
  induction name as [|c name IH]; [done|]. cbn [map concat]. rewrite IH.
  by destruct (invalid_char c).
Qed.

Lemma underscored_valid name : Forall (fun c => invalid_char c = false) (underscored name).
Proof.
  unfold underscored. apply Forall_fmap, list.Forall_forall. intros c _. simpl.
  by destruct (invalid_char c) eqn:E.
Qed.

Lemma underscored_id name :
  Forall (fun c => invalid_char c = false) name -> underscored name = name.
Proof.
  unfold underscored. induction 1 as [|c name Hc _ IH]; [done|].
  cbn [map]. by rewrite Hc, IH.
Qed.

(** X1.  The sanitised name has the length of the name; each of the nine
    invalid characters has become an underscore and every other character
    is where it was; no invalid character is left. *)
Theorem sanitize_filename_spec name :
  sanitize_filename name = underscored name /\
  length (sanitize_filename name) = length name /\
  Forall (fun c => invalid_char c = false) (sanitize_filename name).
Proof.
  rewrite sanitize_filename_map. split; [done|]. split.
  - unfold underscored. apply length_map.
  - apply underscored_valid.
Qed.

(** X2.  Sanitising twice is sanitising once, and the names that come
    back unchanged are those without an invalid character. *)
Theorem sanitize_filename_idempotent name :
  sanitize_filename (sanitize_filename name) = sanitize_filename name /\
  (sanitize_filename name = name <-> Forall (fun c => invalid_char c = false) name).
Proof.
  rewrite !sanitize_filename_map. split.
  - apply underscored_id, underscored_valid.
  - split; [|apply underscored_id]. intros <-. apply underscored_valid.
Qed.

(** The name is sanitised piece by piece. *)
Lemma sanitize_filename_app name suffix :
  sanitize_filename (name ++ suffix) = sanitize_filename name ++ sanitize_filename suffix.
Proof.
  rewrite !sanitize_filename_map. unfold underscored. apply map_app.
Qed.

End UtilsFacts.

(** ** More on [chunk_text] *)

Module ChunkFacts.
Import Py Text Props PyFacts TextFacts Abstract.

Lemma join_blank_snoc ps p : join blank (ps ++ [p]) = delimit ps ++ p.
Proof.
  induction ps as [|q ps IH]; [done|].
  rewrite delimit_cons, <- !app_assoc, <- IH.
  destruct ps; [done|]. apply join_blank_cons.
Qed.

Lemma join_blank_delimit_length ps : length (join blank ps) <= length (delimit ps).
Proof.
  destruct ps as [|p ps]; [done|]. rewrite delimit_join by done. rewrite length_app. lia.
Qed.

(** While everything seen fits, the loop appends no chunk. *)
Lemma chunk_loop_fits max_chars paras :
  (Z.of_nat (length (join blank paras)) <= max_chars)%Z ->
  foldl (chunk_step max_chars) ([], []) paras = ([], delimit paras).
Proof.
  induction paras as [|p paras IH] using rev_ind; intros Hfit; [done|].
  rewrite join_blank_snoc, length_app in Hfit.
  pose proof (join_blank_delimit_length paras).
  rewrite foldl_app, IH by lia. cbn [foldl chunk_step].
  rewrite (proj2 (Z.ltb_ge _ _)) by lia.
  by rewrite delimit_app, delimit_cons, app_nil_r.
Qed.

(** X3.  The chunks put end to end are the text followed by one blank
    line, and there is always a chunk: nothing is lost, added inside or
    moved. *)
Theorem chunk_text_round_trip text max_chars :
  concat (chunk_text text max_chars) = text ++ blank /\ chunk_text text max_chars <> [].
Proof.
  split; [apply chunk_text_concat|].
  pose proof (chunk_text_length text max_chars) as H. intros Heq. rewrite Heq in H.
  simpl in H. lia.
Qed.

(** X4.  A text that fits in [max_chars] comes back as one chunk, the text
    with a blank line added. *)
Theorem chunk_text_fits text max_chars :
  (Z.of_nat (length text) <= max_chars)%Z -> chunk_text text max_chars = [text ++ blank].
Proof.
  intros Hfit. unfold chunk_text.
  rewrite chunk_loop_fits by (by rewrite split_blank_join).
  destruct (split_blank_cons text) as (p & ps & Hs).
  rewrite delimit_join, split_blank_join by (by rewrite Hs).
  by destruct text.
Qed.

Lemma chunk_text_fits_witness : chunk_text (s "one" ++ blank ++ s "two") 8 = [s "one" ++ blank ++ s "two" ++ blank].
Proof. apply (chunk_text_fits (s "one" ++ blank ++ s "two") 8). simpl. lia. Defined.

Lemma chunk_step_eq max_chars chunks current p :
  chunk_step max_chars (chunks, current) p
  = if (max_chars <? Z.of_nat (length current + length p))%Z
    then (chunks ++ [current], p ++ blank)
    else (chunks, current ++ p ++ blank).
Proof. unfold chunk_step. by destruct (max_chars <? _)%Z. Qed.

(** Once a paragraph is under way, every chunk appended holds one. *)
Lemma chunk_loop_nonempty max_chars paras : forall (chunks : list str) (current : str),
  current <> [] ->
  exists more last,
    foldl (chunk_step max_chars) (chunks, current) paras = (chunks ++ more, last) /\
    Forall (fun c => c <> []) more /\ last <> [].
Proof.
  induction paras as [|p paras IH]; intros chunks current Hne.
  - exists [], current. by rewrite app_nil_r.
  - cbn [foldl]. rewrite chunk_step_eq.
    destruct (max_chars <? _)%Z.
    + destruct (IH (chunks ++ [current]) (p ++ blank)) as (more & last & Heq & Hmore & Hlast).
      { by destruct p. }
      exists (current :: more), last. split; [|by repeat constructor].
      etrans; [apply Heq|]. by rewrite <- app_assoc.
    + destruct (IH chunks (current ++ p ++ blank)) as (more & last & Heq & Hmore & Hlast).
      { by destruct current. }
      by exists more, last.
Qed.

(** X5.  An empty chunk can only be the first one, and it is there exactly
    when the first paragraph alone is longer than [max_chars]; every other
    chunk holds a paragraph. *)
Theorem chunk_text_empty_first text max_chars :
  exists others,
    chunk_text text max_chars
    = (if (max_chars <? Z.of_nat (length (first_paragraph text)))%Z
       then [] :: others else others) /\
    Forall (fun c => c <> []) others.
Proof.
  unfold chunk_text, first_paragraph.
  destruct (split_blank_cons text) as (p & ps & ->).
  cbn [foldl]. rewrite chunk_step_eq. cbn [length Nat.add app].
  destruct (max_chars <? Z.of_nat (length p))%Z.
  - destruct (chunk_loop_nonempty max_chars ps [[]] (p ++ blank))
      as (more & last & Heq & Hmore & Hlast); [by destruct p|].
    exists (more ++ [last]). split; [|apply Forall_app; split; [done|by repeat constructor]].
    etrans; [apply (f_equal (fun st : list str * str =>
                              let '(chunks, current) := st in
                              match current with [] => chunks | _ => chunks ++ [current] end) Heq)|].
    by destruct last.
  - destruct (chunk_loop_nonempty max_chars ps [] (p ++ blank))
      as (more & last & Heq & Hmore & Hlast); [by destruct p|].
    exists (more ++ [last]). split; [|apply Forall_app; split; [done|by repeat constructor]].
    etrans; [apply (f_equal (fun st : list str * str =>
                              let '(chunks, current) := st in
                              match current with [] => chunks | _ => chunks ++ [current] end) Heq)|].
    by destruct last.
Qed.

(** A text without a line feed is one paragraph. *)
Lemma split_blank_nl_free x : nl ∉ x -> split_blank x = [x].
Proof.
  induction x as [|c [|d r] IH]; intros Hx; [done..|].
  rewrite split_blank_step.
  destruct (Ascii.eqb c nl) eqn:E.
  { apply Ascii.eqb_eq in E as ->. exfalso. apply Hx. left. }
  cbn [andb]. rewrite IH; [done|]. intros Hin. apply Hx. by right.
Qed.

Lemma chunk_text_single text max_chars :
  split_blank text = [text] ->
  chunk_text text max_chars
  = if (max_chars <? Z.of_nat (length text))%Z then [[]; text ++ blank] else [text ++ blank].
Proof.
  intros Hs. unfold chunk_text. rewrite Hs. cbn [foldl]. rewrite chunk_step_eq.
  cbn [length Nat.add app].
  destruct (max_chars <? Z.of_nat (length text))%Z; by destruct text.
Qed.

(** X6.  A text that is one paragraph (no blank line in it) is never cut:
    when it is longer than [max_chars] it comes back whole behind an empty
    chunk. *)
Theorem chunk_text_one_paragraph text max_chars :
  split_blank text = [text] ->
  chunk_text text max_chars
  = if (max_chars <? Z.of_nat (length text))%Z then [[]; text ++ blank] else [text ++ blank].
Proof. apply chunk_text_single. Qed.

Lemma chunk_text_one_paragraph_witness :
  chunk_text (s "aaaaaaaaaa") 5 = [[]; s "aaaaaaaaaa" ++ blank].
Proof. apply (chunk_text_one_paragraph (s "aaaaaaaaaa") 5). reflexivity. Defined.

End ChunkFacts.

(** ** More on [detect_sections] *)

Module DetectFacts.
Import Py Re Sub Text Extract Props Notions PyFacts ReFacts SubFacts TextFacts ChunkFacts.

(** The loop that filters the headers: the kept matches are not empty,
    [last_end] is the end of the last one kept, and two kept in a row are
    more than [min_section_size] apart. *)
Lemma filter_loop_spaced all :
  Forall (fun m => m_start m < m_end m) all ->
  Forall (fun m => 0 < m_end m) (fst (foldl Extract.filter_step ([], 0) all)) /\
  snd (foldl Extract.filter_step ([], 0) all)
  = default 0 (m_end <$> last (fst (foldl Extract.filter_step ([], 0) all))) /\
  (forall i m m',
     fst (foldl Extract.filter_step ([], 0) all) !! i = Some m ->
     fst (foldl Extract.filter_step ([], 0) all) !! S i = Some m' ->
     min_section_size < m_start m' - m_end m).
Proof.
  induction all as [|m0 all IH] using rev_ind; intros Hall.
  - split; [constructor|]. split; [done|]. intros i m m' H. cbn [foldl fst] in H. by rewrite lookup_nil in H.
  - apply Forall_app in Hall as [Hall Hm0]. apply Forall_cons in Hm0 as [Hm0 _].
    destruct (IH Hall) as (Hpos & Hlast & Hspaced). clear IH.
    rewrite foldl_app. cbn [foldl].
    destruct (foldl Extract.filter_step ([], 0) all) as [filtered last_end].
    cbn [fst snd] in *. unfold Extract.filter_step.
    destruct ((min_section_size <? m_start m0 - last_end) || (last_end =? 0)) eqn:E;
      cbn [fst snd]; [|done].
    split; [apply Forall_app; split; [done|]; repeat constructor; lia|].
    split; [by rewrite last_snoc|].
    intros i m m' Hm Hm'.
    destruct (decide (S i < length filtered)) as [Hlt|Hge].
    + rewrite lookup_app_l in Hm by lia. rewrite lookup_app_l in Hm' by lia. eauto.
    + assert (Hi : S i = length filtered).
      { apply lookup_lt_Some in Hm'. rewrite length_app in Hm'. simpl in Hm'. lia. }
      rewrite lookup_app_l in Hm by lia.
      rewrite lookup_app_r, Hi, Nat.sub_diag in Hm' by lia. injection Hm' as <-.
      assert (Hlast' : last filtered = Some m).
      { rewrite last_lookup. by replace (pred (length filtered)) with i by lia. }
      rewrite Hlast' in Hlast. simpl in Hlast. subst last_end.
      rewrite list.Forall_lookup in Hpos. specialize (Hpos i m Hm).
      apply orb_prop in E as [E|E]; [by apply Nat.ltb_lt in E|].
      apply Nat.eqb_eq in E. lia.
Qed.

(** X7.  Between two headers kept one after the other there are more than
    1000 characters, from the end of the first to the start of the second;
    and every header kept takes at least one character. *)
Theorem filtered_matches_spaced text section_patterns :
  Forall (fun m => m_start m < m_end m) (filtered_matches text section_patterns) /\
  forall i m m',
    filtered_matches text section_patterns !! i = Some m ->
    filtered_matches text section_patterns !! S i = Some m' ->
    min_section_size < m_start m' - m_end m.
Proof.
  pose proof (finditer_headers_not_empty text section_patterns) as Hall.
  split; [|by apply filter_loop_spaced].
  unfold filtered_matches. revert Hall.
  generalize (finditer true (combined_pattern section_patterns) text). intros all.
  induction all as [|m0 all IH] using rev_ind; intros Hall; [constructor|].
  apply Forall_app in Hall as [Hall Hm0]. apply Forall_cons in Hm0 as [Hm0 _].
  rewrite foldl_app. cbn [foldl]. specialize (IH Hall).
  destruct (foldl Extract.filter_step ([], 0) all) as [filtered last_end].
  unfold Extract.filter_step. cbn [fst] in *.
  destruct (_ || _); cbn [fst]; [|done]. apply Forall_app. by repeat constructor.
Qed.

Lemma no_nl_spec x : no_nl x = true -> nl ∉ x.
Proof.
  induction x as [|c x IH]; simpl; [intros _; apply not_elem_of_nil|].
  intros [Hc Hx]%andb_prop. apply not_elem_of_cons. split; [|by apply IH].
  intros <-. by rewrite Ascii.eqb_refl in Hc.
Qed.

Lemma slice_thirds text :
  slice 0 (int_mul_025 (length text)) text
  ++ slice (int_mul_025 (length text)) (int_mul_075 (length text)) text
  ++ slice_from (int_mul_075 (length text)) text = text.
Proof.
  unfold slice, slice_from, int_mul_025, int_mul_075.
  set (a := length text / 4). set (b := length text * 3 / 4).
  assert (Hab : a <= b) by (apply Nat.Div0.div_le_mono; lia).
  rewrite Nat.sub_0_r, drop_0.
  rewrite <- (take_drop a text) at 4. f_equal.
  rewrite <- (take_drop (b - a) (drop a text)) at 2. f_equal.
  rewrite drop_drop. f_equal. lia.
Qed.

Lemma fallback_tier_no_intro text :
  search true intro_pattern text = None -> fallback_tier text = proportional text.
Proof.
  intros Hintro. unfold fallback_tier. rewrite Hintro.
  by destruct (search true abstract_pattern text).
Qed.

(** X8.  When no introduction is found, the fallback cuts the text in
    three pieces that, put end to end, are the text: the first quarter, the
    two middle quarters and the last quarter, with nothing left out. *)
Theorem fallback_tier_partition text :
  search true intro_pattern text = None ->
  fallback_tier text = proportional text /\
  concat (map content (fallback_tier text)) = text.
Proof.
  intros Hintro. rewrite fallback_tier_no_intro by done. split; [done|].
  cbn [proportional map concat content new_section]. rewrite app_nil_r. apply slice_thirds.
Qed.

Lemma fallback_tier_partition_witness :
  concat (map content (fallback_tier (s "no header in this text"))) = s "no header in this text".
Proof. apply (fallback_tier_partition (s "no header in this text")). reflexivity. Defined.

Lemma slice_nl_free a b x : nl ∉ x -> nl ∉ slice a b x.
Proof.
  intros Hx Hin. apply Hx. unfold slice in Hin.
  apply elem_of_take in Hin as (i & Hi & _). apply list_elem_of_lookup_2 in Hi.
  apply list_elem_of_lookup in Hi as [j Hj]. rewrite lookup_drop in Hj.
  by apply list_elem_of_lookup_2 in Hj.
Qed.

Lemma slice_from_nl_free a x : nl ∉ x -> nl ∉ slice_from a x.
Proof.
  intros Hx Hin. apply Hx. unfold slice_from in Hin.
  apply list_elem_of_lookup in Hin as [j Hj]. rewrite lookup_drop in Hj.
  by apply list_elem_of_lookup_2 in Hj.
Qed.

(** None of the three patterns of the detector can match a text without a
    line feed. *)
Lemma raw_sections_nl_free text section_patterns :
  nl ∉ text -> raw_sections text section_patterns = proportional text.
Proof.
  intros Hx. unfold raw_sections, primary_tier, filtered_matches, finditer.
  rewrite finditer_from_needs_nl; [|by unfold combined_pattern; simpl; rewrite !orb_true_r|done].
  cbn [foldl fst length Nat.leb Nat.ltb]. apply fallback_tier_no_intro.
  by apply search_from_needs_nl.
Qed.

Lemma process_section_one_paragraph max_chars sec :
  nl ∉ content sec -> process_section max_chars sec = unsplit max_chars sec.
Proof.
  intros Hx. unfold process_section, unsplit.
  rewrite chunk_text_single by (by apply split_blank_nl_free).
  by destruct (max_chars <? _)%Z.
Qed.

(** X9.  A text without a line feed has no header that the detector can
    find and no paragraph that the chunker can cut: whatever the patterns,
    the result is the proportional split, each of the three sections as it
    is when it fits in [max_chars], and otherwise as an empty part 1
    followed by a part 2 that holds its whole content and a blank line. *)
Theorem detect_sections_nl_free text section_patterns max_chars :
  no_nl text = true ->
  detect_sections text section_patterns max_chars
  = concat (map (unsplit max_chars) (proportional text)).
Proof.
  intros Hx%no_nl_spec. unfold detect_sections. rewrite raw_sections_nl_free by done.
  unfold proportional. cbn [map].
  rewrite !process_section_one_paragraph; [done|..]; cbn [content new_section].
  - by apply slice_from_nl_free.
  - by apply slice_nl_free.
  - by apply slice_nl_free.
Qed.

Lemma detect_sections_nl_free_witness :
  map content (detect_sections (s "twelve chars") SECTION_TITLES 5)
  = [ s "twe"; []; s "lve ch" ++ blank; s "ars" ].
Proof.
  rewrite (detect_sections_nl_free (s "twelve chars") SECTION_TITLES 5); reflexivity.
Defined.

End DetectFacts.

(** ** [extract_abstract] *)

Module AbstractFacts.
Import Py Re Sub Text Extract Abstract Props Notions PyFacts ReFacts SubFacts ChunkFacts DetectFacts.

(** A pattern that starts with a class takes the first character when the
    class holds it and the rest of the pattern always matches. *)
Lemma match_at_class_first p r q c y :
  p c = true -> (forall st, is_Some (rmatch false r Some st)) ->
  exists m, match_at false (Cat (Class p) r) q (c :: y) = Some m /\ m_end m <> q.
Proof.
  intros Hp Hr. unfold match_at. cbn [rmatch rest pos caps class_ok]. rewrite Hp.
  destruct (Hr (MState (S q) y [])) as [res Hres]. rewrite Hres.
  eexists. split; [done|]. simpl.
  apply rmatch_advances in Hres as (st1 & Hle & [= <-]). simpl in Hle. lia.
Qed.

Lemma star_class_total p st : is_Some (rmatch false (Star true (Class p)) Some st).
Proof. cbn [rmatch]. by apply star_loop_total. Qed.

(** After [re.sub(r'\s+', ' ', x)] the only white space left is the
    space. *)
Lemma collapse_spaces_plain x : Forall plain_space (collapse_spaces x).
Proof.
  unfold collapse_spaces, sub.
  pose proof (sub_from_drops false (plus space) (s " ")
                (fun c => is_space c = true /\ c <> ascii_of_N 32)) as H.
  eapply Forall_impl; [apply H|].
  - intros q y c [Hc _]. apply match_at_class_first; [done|]. apply star_class_total.
  - repeat constructor. by intros [_ Hne].
  - intros c Hc. unfold plain_space. intros Hs.
    destruct (Ascii.ascii_dec c (ascii_of_N 32)) as [->|Hne]; [done|]. exfalso. by apply Hc.
Qed.

Lemma first_abstract_shape text searches a :
  first_abstract text searches = Some a -> 50 < length a /\ Forall plain_space a.
Proof.
  induction searches as [|find later IH]; [done|]. cbn [first_abstract].
  destruct (find text) as [m|]; [|done].
  destruct (50 <? _) eqn:E; [|done].
  intros [= <-]. split; [by apply Nat.ltb_lt|apply collapse_spaces_plain].
Qed.

Lemma first_paragraph_prefix text : first_paragraph text `prefix_of` text.
Proof.
  unfold first_paragraph. pose proof (split_blank_join text) as Hj.
  destruct (split_blank text) as [|p [|q qs]].
  - apply prefix_nil.
  - simpl in Hj. by rewrite Hj.
  - rewrite join_blank_cons in Hj. rewrite <- Hj. by apply prefix_app_r.
Qed.

(** X10.  The abstract returned is empty, or found by a pattern, then
    longer than 50 characters with no white space but single-character
    spaces, or the start of the text, then between 101 and 500 characters
    long. *)
Theorem extract_abstract_shape text :
  extract_abstract text = [] \/
  50 < length (extract_abstract text) /\ Forall plain_space (extract_abstract text) \/
  100 < length (extract_abstract text) <= 500 /\ extract_abstract text `prefix_of` text.
Proof.
  unfold extract_abstract.
  destruct (first_abstract text abstract_patterns) as [a|] eqn:E.
  - right. left. by apply (first_abstract_shape text abstract_patterns).
  - destruct (100 <? length (first_paragraph text)) eqn:E1; [|by left].
    apply Nat.ltb_lt in E1. right. right. unfold slice. rewrite Nat.sub_0_r, drop_0.
    split; [rewrite length_take; lia|].
    etrans; [apply prefix_take|apply first_paragraph_prefix].
Qed.

Lemma first_abstract_nl_free text : nl ∉ text -> first_abstract text abstract_patterns = None.
Proof.
  intros Hx. unfold abstract_patterns, first_abstract, search, search_ahead.
  rewrite !search_from_needs_nl by done.
  by rewrite search_ahead_from_needs_nl.
Qed.

(** X11.  In a text without a line feed no pattern finds an abstract: the
    result is the first 500 characters of the text when it has more than
    100 characters, and nothing otherwise. *)
Theorem extract_abstract_nl_free text :
  no_nl text = true ->
  extract_abstract text = if 100 <? length text then take 500 text else [].
Proof.
  intros Hx%no_nl_spec. unfold extract_abstract, first_paragraph.
  rewrite first_abstract_nl_free, split_blank_nl_free by done.
  unfold slice. by rewrite Nat.sub_0_r, drop_0.
Qed.

Lemma extract_abstract_nl_free_witness : extract_abstract (s "Abstract: too short to count") = [].
Proof. apply (extract_abstract_nl_free (s "Abstract: too short to count")). reflexivity. Defined.

End AbstractFacts.

(** ** [extract_text_and_title] *)

Module PdfFacts.
Import Py Re Sub Text Extract Abstract Pdf Props Notions.
Import PyFacts ReFacts SubFacts ChunkFacts DetectFacts AbstractFacts Examples.

Lemma star_loop_falls_back greedy body k fuel st :
  is_Some (k st) -> is_Some (star_loop greedy body k fuel st).
Proof.
  intros [res Hres]. destruct fuel; simpl; [by rewrite Hres|].
  unfold orelse. rewrite Hres. destruct greedy; [|done]. by destruct (body _ st).
Qed.

(** At a line feed the pattern of the line breaks has a match, and the
    match takes the line feed. *)
Lemma line_break_at_nl q y :
  exists m, match_at false line_break q (nl :: y) = Some m /\ m_end m <> q.
Proof.
  unfold match_at, line_break.
  set (after := rmatch false (Cat newline (Star true space)) Some).
  assert (Hafter : forall p t, is_Some (after (MState p (nl :: t) []))).
  { intros p t. unfold after. cbn [rmatch rest pos caps newline char_ok].
    rewrite Ascii.eqb_refl. by apply star_loop_total. }
  assert (is_Some (rmatch false (Cat (Star true space) (Cat newline (Star true space))) Some
                     (MState q (nl :: y) []))) as [res Hres].
  { cbn [rmatch]. apply star_loop_falls_back. apply Hafter. }
  rewrite Hres. eexists. split; [done|]. cbn [fmap option_fmap option_map m_end].
  change (rmatch false (Star true space) after (MState q (nl :: y) []) = Some res) in Hres.
  apply rmatch_advances in Hres as (st1 & Hle & Hres). cbn [pos] in Hle.
  unfold after in Hres. cbn [rmatch newline] in Hres.
  destruct (rest st1) as [|c t]; [done|]. destruct (char_ok false nl c); [|done].
  apply star_loop_advances in Hres as (st2 & Hle2 & [= <-]); [cbn [pos] in Hle2; lia|].
  intros k' st' res'. apply rmatch_advances.
Qed.

Lemma clean_page_nl_free page : nl ∉ clean_page page.
Proof.
  unfold clean_page, sub.
  assert (Forall (fun c => c <> nl) (sub_from false line_break (s " ") 0 0 (default [] page)))
    as HF.
  { apply (sub_from_drops false line_break (s " ") (fun c => c = nl)).
    - intros q y c ->. apply line_break_at_nl.
    - by repeat constructor. }
  intros Hin. by eapply list.Forall_forall in HF.
Qed.

Lemma join_nl_free sep xs :
  nl ∉ sep -> Forall (fun x => nl ∉ x) xs -> nl ∉ join sep xs.
Proof.
  intros Hsep. induction 1 as [|x xs Hx Hxs IH]; [by apply not_elem_of_nil|].
  destruct xs as [|x' xs]; [done|].
  change (join sep (x :: x' :: xs)) with (x ++ sep ++ join sep (x' :: xs)).
  rewrite !elem_of_app. tauto.
Qed.

Lemma extract_text_no_line_feed metadata stem pages text title :
  extract_text_and_title metadata stem pages = Some (text, title) -> nl ∉ text.
Proof.
  unfold extract_text_and_title. destruct metadata as [meta_title|]; [|done].
  intros [= <- _]. apply join_nl_free.
  - intros [Hc|Hc%elem_of_nil]%elem_of_cons; [discriminate Hc|done].
  - apply Forall_map. apply list.Forall_forall. intros page _. apply clean_page_nl_free.
Qed.

Lemma no_nl_complete x : nl ∉ x -> no_nl x = true.
Proof.
  induction x as [|c x IH]; [done|]. intros [Hc Hx]%not_elem_of_cons. simpl.
  rewrite IH, andb_true_r by done. apply negb_true_iff, Ascii.eqb_neq. congruence.
Qed.

(** X12.  The text that [extract_text_and_title] returns holds no line
    feed, whatever the pages hold. *)
Theorem extract_text_nl_free metadata stem pages text title :
  extract_text_and_title metadata stem pages = Some (text, title) -> no_nl text = true.
Proof. intros H. apply no_nl_complete. by eapply extract_text_no_line_feed. Qed.

Lemma extract_text_nl_free_witness : no_nl (s "Title page first line  second page  ") = true.
Proof.
  apply (extract_text_nl_free (Some None) (s "paper") two_pages
           (s "Title page first line  second page  ") (s "paper")).
  reflexivity.
Defined.

(** X13.  Composition, as [summarize_file] runs it: on the text of a PDF
    the section detector finds no header and returns the proportional
    split, unsplit, and the abstract is the start of the text. *)
Theorem pdf_text_sections metadata stem pages text title section_patterns max_chars :
  extract_text_and_title metadata stem pages = Some (text, title) ->
  detect_sections text section_patterns max_chars
  = concat (map (unsplit max_chars) (proportional text))
  /\ extract_abstract text = if 100 <? length text then take 500 text else [].
Proof.
  intros Hx%extract_text_no_line_feed. split.
  - unfold detect_sections. rewrite raw_sections_nl_free by done.
    unfold proportional. cbn [map].
    rewrite !process_section_one_paragraph; [done|..]; cbn [content new_section].
    + by apply slice_from_nl_free.
    + by apply slice_nl_free.
    + by apply slice_nl_free.
  - unfold extract_abstract, first_paragraph.
    rewrite first_abstract_nl_free, split_blank_nl_free by done.
    unfold slice. by rewrite Nat.sub_0_r, drop_0.
Qed.

Lemma pdf_text_sections_witness :
  detect_sections (s "Title page first line  second page  ") SECTION_TITLES CHUNK_SIZE
  = concat (map (unsplit CHUNK_SIZE) (proportional (s "Title page first line  second page  ")))
  /\ extract_abstract (s "Title page first line  second page  ")
     = if 100 <? length (s "Title page first line  second page  ")
       then take 500 (s "Title page first line  second page  ") else [].
Proof.
  apply (pdf_text_sections (Some None) (s "paper") two_pages
           (s "Title page first line  second page  ") (s "paper")).
  reflexivity.
Defined.

End PdfFacts.

(** ** More on [filter_irrelevant_sections] *)

Module FilterFacts.
Import Py Sorted Props SortedFacts StoreFacts Topic TopicFacts Examples.

Lemma all_before_sorted {A} (before : A -> A -> bool) (xs : list A) :
  (forall x y, x ∈ xs -> y ∈ xs -> before x y = true) ->
  StronglySorted (fun x y => before x y = true) xs.
Proof.
  induction xs as [|x xs IH]; intros H; constructor.
  - apply IH. intros a b Ha Hb. apply H; by apply elem_of_cons; right.
  - apply list.Forall_forall. intros y Hy. apply H; [by left|by right].
Qed.

Section WithVectoriser.
Variable tfidf_cosine : str -> str -> option Q.
Variable topics : topic_dict.
Variable similarity_threshold : Q.

Local Abbreviation similarity_at := (Topic.similarity_at tfidf_cosine topics).
Local Abbreviation passes := (Topic.passes tfidf_cosine topics similarity_threshold).
Local Abbreviation annotated := (Topic.annotated tfidf_cosine topics).

Lemma filter_store h sections l :
  fst (filter_irrelevant_sections tfidf_cosine h sections topics similarity_threshold) l = annotated h sections l.
Proof. by destruct (filter_result tfidf_cosine topics similarity_threshold h sections)
         as (h1 & out & -> & Hh1 & _). Qed.

(** X14.  What the filter does to the section dictionaries: every section
    of the input list, kept or not, gets its similarity under
    ['topic_similarity']; nothing else is written, and no other section is
    touched. *)
Theorem filter_store_frame h sections l :
  let h1 := fst (filter_irrelevant_sections tfidf_cosine h sections topics similarity_threshold) in
  title (h1 l) = title (h l) /\ content (h1 l) = content (h l) /\
  title_relevance (h1 l) = title_relevance (h l) /\
  topic_guidance (h1 l) = topic_guidance (h l) /\
  topic_similarity (h1 l)
  = if decide (l ∈ sections)
    then Some (compute_topic_similarity tfidf_cosine topics (content (h l)))
    else topic_similarity (h l).
Proof.
  cbv zeta. rewrite filter_store. unfold Topic.annotated.
  by destruct (decide (l ∈ sections)).
Qed.

(** X15.  The filter returns sections of its input, each as often at most
    as the input holds it. *)
Theorem filter_submseteq h sections :
  snd (filter_irrelevant_sections tfidf_cosine h sections topics similarity_threshold) ⊆+ sections.
Proof.
  destruct (filter_result tfidf_cosine topics similarity_threshold h sections)
    as (h1 & out & -> & _ & [(_ & _ & ->)|(_ & ->)]); cbn [snd].
  - etrans; [apply sublist_submseteq, sublist_take|].
    unfold sorted_reverse. by rewrite sorted_by_perm.
  - apply sublist_submseteq, sublist_filter.
Qed.

Lemma similarity_at_raising h l :
  (forall a b, tfidf_cosine a b = None) -> similarity_at h l = 0%Q.
Proof.
  intros Hnone. unfold Topic.similarity_at, compute_topic_similarity.
  rewrite Hnone. by destruct (_ || _).
Qed.

(** X16.  The filter fails closed: when the vectoriser raises on every
    section, every similarity is 0; under a positive threshold no section
    passes, and the result is the first three sections of the input, or no
    section at all when the input has fewer than three. *)
Theorem filter_vectoriser_raises h sections :
  (forall a b, tfidf_cosine a b = None) -> (0 < similarity_threshold)%Q ->
  snd (filter_irrelevant_sections tfidf_cosine h sections topics similarity_threshold)
  = if 3 <=? length sections then take 3 sections else [].
Proof.
  intros Hnone Hpos.
  assert (Hnone_pass : filter (passes h) sections = []).
  { induction sections as [|l ls IH]; [done|]. rewrite filter_cons, IH.
    rewrite decide_False; [done|]. unfold Topic.passes.
    rewrite similarity_at_raising by done. intros Hle%Is_true_true%Qle_bool_iff.
    by apply (Qlt_not_le _ _ Hpos). }
  destruct (filter_result tfidf_cosine topics similarity_threshold h sections)
    as (h1 & out & -> & Hh1 & Hout); cbn [snd]. rewrite Hnone_pass in Hout.
  destruct Hout as [(_ & Hlen & ->)|(Hnot & ->)].
  - rewrite (proj2 (Nat.leb_le _ _) Hlen). f_equal. unfold sorted_reverse.
    apply sorted_by_id, all_before_sorted. intros x y Hx Hy.
    unfold get_topic_similarity. rewrite !Hh1. unfold Topic.annotated.
    rewrite !decide_True by done. cbn [topic_similarity set_topic_similarity default].
    rewrite !similarity_at_raising by done. done.
  - destruct (3 <=? length sections) eqn:E; [|done].
    apply Nat.leb_le in E. exfalso. apply Hnot. simpl. split; [lia|done].
Qed.

End WithVectoriser.

Lemma filter_vectoriser_raises_witness :
  snd (filter_irrelevant_sections raising plain_store [4; 2; 7; 5] [(s "topic", 1%Q)] (3 # 20))
  = [4; 2; 7].
Proof.
  apply (filter_vectoriser_raises raising [(s "topic", 1%Q)] (3 # 20) plain_store [4; 2; 7; 5]).
  - reflexivity.
  - reflexivity.
Defined.

End FilterFacts.

(** ** More on [validate_content_against_title] *)

Module ValidateFacts.
Import Py Re Sorted Props Notions SortedFacts StoreFacts Validation.
Import PyFacts ReFacts SubFacts AbstractFacts ValidationFacts Examples.

Lemma digit_not_space c : is_digit c = true -> is_space c = false.
Proof. by destruct c as [[] [] [] [] [] [] [] []]. Qed.

Lemma has_digit_lstrip x : has_digit (lstrip x) = has_digit x.
Proof.
  induction x as [|c x IH]; [done|]. cbn [lstrip].
  destruct (is_space c) eqn:E; [|done]. rewrite IH. unfold has_digit. cbn [existsb].
  destruct (is_digit c) eqn:Ed; [|done]. apply digit_not_space in Ed. congruence.
Qed.

Lemma has_digit_rev x : has_digit (rev x) = has_digit x.
Proof.
  unfold has_digit. induction x as [|c x IH]; [done|]. cbn [rev existsb].
  rewrite existsb_app, IH. cbn [existsb]. by rewrite orb_false_r, orb_comm.
Qed.

Lemma has_digit_strip x : has_digit (strip x) = has_digit x.
Proof.
  unfold strip, rstrip. by rewrite has_digit_rev, has_digit_lstrip, has_digit_rev, has_digit_lstrip.
Qed.

(** The pattern of the score matches wherever a digit stands. *)
Lemma score_pattern_at_digit q c y :
  is_digit c = true -> is_Some (match_at false score_pattern q (c :: y)).
Proof.
  intros Hc.
  change (match_at false score_pattern q (c :: y))
    with (match_at false
            (Cat (Class is_digit)
               (Cat (Star true (Class is_digit)) (opt (Cat (Char ".") (plus (Class is_digit))))))
            q (c :: y)).
  destruct (match_at_class_first is_digit
              (Cat (Star true (Class is_digit)) (opt (Cat (Char ".") (plus (Class is_digit)))))
              q c y Hc) as (m & Hm & _); [|by rewrite Hm].
  intros st. cbn [rmatch]. apply star_loop_total. intros st1.
  unfold opt. cbn [rmatch]. unfold orelse. by destruct (match rest st1 with [] => _ | _ => _ end).
Qed.

Lemma search_from_score x : forall p,
  search_from false score_pattern p x = None <-> has_digit x = false.
Proof.
  induction x as [|c x IH]; intros p; [done|]. cbn [search_from].
  unfold has_digit. cbn [existsb]. destruct (is_digit c) eqn:Ec.
  - destruct (score_pattern_at_digit p c x Ec) as [m ->]. done.
  - replace (match_at false score_pattern p (c :: x)) with (@None rmatch_obj).
    + apply IH.
    + unfold match_at, score_pattern, plus, digit. cbn [rmatch rest class_ok]. by rewrite Ec.
Qed.

(** X17.  A reply gives no score exactly when it holds no decimal digit;
    any digit in it, wherever it stands, is read as a score. *)
Theorem parse_score_none_iff text : parse_score text = None <-> has_digit text = false.
Proof.
  unfold parse_score, search. rewrite fmap_None, search_from_score. by rewrite has_digit_strip.
Qed.

Lemma digit_value_nonneg c : (0 <= digit_value c)%Z.
Proof. unfold digit_value. lia. Qed.

Lemma decimal_value_from x : forall acc,
  (0 <= acc)%Z -> (0 <= foldl (fun acc c => (acc * 10 + digit_value c)%Z) acc x)%Z.
Proof.
  induction x as [|c x IH]; intros acc Hacc; [done|]. cbn [foldl]. apply IH.
  pose proof (digit_value_nonneg c). lia.
Qed.

Lemma decimal_value_nonneg x : (0 <= decimal_value x)%Z.
Proof. by apply decimal_value_from. Qed.

Lemma float_of_nonneg token : (0 <= float_of token)%Q.
Proof.
  unfold float_of. apply FloatFacts.rnd_nonneg. unfold decimal_of.
  assert (Hint : (0 <= inject_Z (decimal_value (leading_digits token)))%Q).
  { change 0%Q with (inject_Z 0). rewrite <- Zle_Qle. apply decimal_value_nonneg. }
  destruct (drop _ token) as [|dot frac_part]; [done|].
  assert (Hfrac : (0 <= inject_Z (decimal_value frac_part)
                        / inject_Z (10 ^ Z.of_nat (length frac_part)))%Q).
  { apply Qle_shift_div_l.
    - change 0%Q with (inject_Z 0). rewrite <- Zlt_Qlt. lia.
    - rewrite Qmult_0_l. change 0%Q with (inject_Z 0). rewrite <- Zle_Qle.
      apply decimal_value_nonneg. }
  apply (Qplus_le_compat 0 _ 0 _ Hint Hfrac).
Qed.

(** X18.  The score read from a reply is never negative: a sign before the
    number is not read. *)
Theorem parse_score_nonneg text score : parse_score text = Some score -> (0 <= score)%Q.
Proof.
  unfold parse_score. intros (m & _ & ->)%fmap_Some. apply float_of_nonneg.
Qed.

Lemma parse_score_nonneg_witness : parse_score (s "-5") = Some 5%Q /\ (0 <= 5)%Q.
Proof. split; [reflexivity|]. apply (parse_score_nonneg (s "-5") 5%Q). reflexivity. Defined.

Section WithClient.
Variable client : Type.
Variable chat : client -> str -> str -> str -> response * client.
Variables (model paper_title : str).

Local Abbreviation pass_from := (Validation.pass_from client chat model paper_title).

Lemma judge_frame h validated l r l' :
  title (fst (judge (h, validated) l r) l') = title (h l') /\
  content (fst (judge (h, validated) l r) l') = content (h l') /\
  topic_similarity (fst (judge (h, validated) l r) l') = topic_similarity (h l') /\
  topic_guidance (fst (judge (h, validated) l r) l') = topic_guidance (h l').
Proof.
  unfold judge. destruct r as [|text]; [done|]. destruct (parse_score text); [|done].
  cbn [fst]. destruct (decide (l = l')) as [->|Hne].
  - by rewrite store_insert_eq.
  - by rewrite store_insert_ne.
Qed.

Lemma pass_from_frame sections : forall c h validated l,
  title (fst (snd (pass_from c h validated sections)) l) = title (h l) /\
  content (fst (snd (pass_from c h validated sections)) l) = content (h l) /\
  topic_similarity (fst (snd (pass_from c h validated sections)) l) = topic_similarity (h l) /\
  topic_guidance (fst (snd (pass_from c h validated sections)) l) = topic_guidance (h l) /\
  (l ∉ sections -> fst (snd (pass_from c h validated sections)) l = h l).
Proof.
  induction sections as [|x later IH]; intros c h validated l; [done|].
  rewrite pass_from_cons.
  set (r := fst (request client chat c model paper_title (h x))).
  set (c' := snd (request client chat c model paper_title (h x))).
  destruct (IH c' (fst (judge (h, validated) x r)) (snd (judge (h, validated) x r)) l)
    as (-> & -> & -> & -> & Hout).
  destruct (judge_frame h validated x r l) as (-> & -> & -> & ->).
  repeat split; try done.
  intros [Hne Hnin]%not_elem_of_cons. rewrite Hout by done. apply judge_other. congruence.
Qed.

Lemma validate_store c h sections :
  fst (snd (validate_content_against_title client chat c paper_title h sections model))
  = fst (snd (pass_from c h [] sections)).
Proof.
  unfold validate_content_against_title. rewrite validate_pass_from.
  destruct (pass_from c h [] sections) as [c1 [h1 kept]]. by destruct (_ && _).
Qed.

(** X19.  What the validation does to the section dictionaries: it writes
    ['title_relevance'] and nothing else, and only on sections of its
    input. *)
Theorem validate_store_frame c h sections l :
  let h1 := fst (snd (validate_content_against_title client chat c paper_title h
                        sections model)) in
  title (h1 l) = title (h l) /\ content (h1 l) = content (h l) /\
  topic_similarity (h1 l) = topic_similarity (h l) /\
  topic_guidance (h1 l) = topic_guidance (h l) /\
  (l ∉ sections -> h1 l = h l).
Proof. cbv zeta. rewrite validate_store. apply pass_from_frame. Qed.

Lemma judge_sublist h validated l r :
  exists ks, snd (judge (h, validated) l r) = validated ++ ks /\ ks `sublist_of` [l].
Proof.
  unfold judge. destruct r as [|text]; [by exists [l]|].
  destruct (parse_score text) as [score|]; [|by exists [l]]. cbn [snd].
  destruct (Qle_bool 6 score); [by exists [l]|].
  exists []. rewrite app_nil_r. split; [done|apply sublist_nil_l].
Qed.

Lemma pass_from_sublist sections : forall c h validated,
  exists ks, snd (snd (pass_from c h validated sections)) = validated ++ ks /\
             ks `sublist_of` sections.
Proof.
  induction sections as [|x later IH]; intros c h validated.
  - exists []. by rewrite app_nil_r.
  - rewrite pass_from_cons.
    set (r := fst (request client chat c model paper_title (h x))).
    set (c' := snd (request client chat c model paper_title (h x))).
    destruct (judge_sublist h validated x r) as (k1 & -> & Hk1).
    destruct (IH c' (fst (judge (h, validated) x r)) (validated ++ k1)) as (k2 & -> & Hk2).
    exists (k1 ++ k2). rewrite <- app_assoc. split; [done|].
    by apply (sublist_app k1 [x] k2 later).
Qed.

(** X20.  The validation returns sections of its input, each as often at
    most as the input holds it. *)
Theorem validate_submseteq c h sections :
  snd (snd (validate_content_against_title client chat c paper_title h sections model))
  ⊆+ sections.
Proof.
  unfold validate_content_against_title. rewrite validate_pass_from.
  destruct (pass_from_sublist sections c h []) as (ks & Hks & Hsub).
  destruct (pass_from c h [] sections) as [c1 [h1 kept]]. cbn [snd] in Hks. subst kept.
  destruct (_ && _); cbn [snd].
  - etrans; [apply sublist_submseteq, sublist_take|].
    unfold sorted_reverse. by rewrite sorted_by_perm.
  - by apply sublist_submseteq.
Qed.

Lemma pass_from_no_score sections : forall c h validated,
  Forall no_score (transcript client chat c paper_title h sections model) ->
  snd (pass_from c h validated sections) = (h, validated ++ sections).
Proof.
  induction sections as [|x later IH]; intros c h validated Hall.
  - by rewrite app_nil_r.
  - rewrite pass_from_cons. cbn [transcript] in Hall.
    destruct (request client chat c model paper_title (h x)) as [r c'].
    apply Forall_cons in Hall as [Hr Hall]. cbn [fst snd].
    rewrite judge_no_score in Hall |- * by done. cbn [fst snd] in Hall |- *.
    rewrite IH by done. by rewrite <- app_assoc.
Qed.

(** X21.  When no request gives a score, each failing or answered without
    a digit, the validation returns the list it was given, in its order,
    and writes nothing. *)
Theorem validate_no_scores c h sections :
  Forall no_score (transcript client chat c paper_title h sections model) ->
  snd (validate_content_against_title client chat c paper_title h sections model)
  = (h, sections).
Proof.
  intros Hall. unfold validate_content_against_title. rewrite validate_pass_from.
  pose proof (pass_from_no_score sections c h [] Hall) as Hp.
  destruct (pass_from c h [] sections) as [c1 [h1 kept]]. cbn [snd] in Hp.
  injection Hp as -> ->. cbn [app].
  replace ((length sections <? 3) && (3 <=? length sections)) with false; [done|].
  symmetry. apply andb_false_iff.
  destruct (Nat.ltb_spec (length sections) 3); [right; apply Nat.leb_gt; lia|by left].
Qed.

End WithClient.

Lemma validate_no_scores_witness :
  snd (validate_content_against_title nat unreachable 0 (s "Title") plain_store [3; 1]
         (s "gpt-4o"))
  = (plain_store, [3; 1]).
Proof.
  apply (validate_no_scores nat unreachable (s "gpt-4o") (s "Title") 0 plain_store [3; 1]).
  repeat constructor.
Defined.

End ValidateFacts.

(** ** The selection of the sections in [_hierarchical_summarize] *)

Module SummarizerFacts.
Import Py Sorted Props Notions Topic Coherence Validation Summarizer.
Import SortedFacts StoreFacts TopicFacts CoherenceFacts ValidationFacts.
Import FilterFacts ValidateFacts Examples.

Section WithServices.
Variable tfidf_cosine : str -> str -> option Q.
Variable tfidf_pairwise : list str -> option (nat -> nat -> Q).
Variable client : Type.
Variable chat : client -> str -> str -> str -> response * client.

(** The coherence check returns its input or its input without one
    section. *)
Lemma coherence_sublist h sections :
  ensure_content_coherence tfidf_pairwise h sections `sublist_of` sections.
Proof.
  unfold ensure_content_coherence. destruct (length sections <=? 2); [done|].
  destruct (tfidf_pairwise _) as [sim|]; [|done].
  destruct (sorted snd _) as [|[k lowest] [|[k2 second] [|p3 tail]]]; try done.
  destruct (Qlt_bool _ _); [|done].
  rewrite without_index_delete. apply sublist_delete.
Qed.

(** X22.  Composition of the three selection steps: the sections that go
    on to be summarised are sections the detector gave, each as often at
    most as it gave it, with title and content as the detector wrote them;
    along the way every section of the detector, selected or not, got its
    topic similarity. *)
Theorem select_sections_sound c paper_title h sections topics min_similarity model :
  let r := select_sections tfidf_cosine tfidf_pairwise client chat c paper_title h sections
             topics min_similarity model in
  snd (snd r) ⊆+ sections /\
  forall l,
    title (fst (snd r) l) = title (h l) /\ content (fst (snd r) l) = content (h l) /\
    (l ∈ sections ->
     topic_similarity (fst (snd r) l)
     = Some (compute_topic_similarity tfidf_cosine topics (content (h l)))).
Proof.
  cbv zeta. unfold select_sections.
  pose proof (filter_result tfidf_cosine topics min_similarity h sections)
    as (h1 & relevant & Hf & Hh1 & Hrel).
  assert (Hsub1 : relevant ⊆+ sections).
  { destruct Hrel as [(_ & _ & ->)|(_ & ->)].
    - etrans; [apply sublist_submseteq, sublist_take|].
      unfold sorted_reverse. by rewrite sorted_by_perm.
    - apply sublist_submseteq, sublist_filter. }
  rewrite Hf.
  set (coherent := ensure_content_coherence tfidf_pairwise h1 relevant).
  split.
  - etrans; [|exact Hsub1].
    etrans; [|apply sublist_submseteq, (coherence_sublist h1 relevant)]. fold coherent.
    unfold validate_content_against_title. rewrite validate_pass_from.
    destruct (pass_from_sublist client chat model paper_title coherent c h1 [])
      as (ks & Hks & Hsub).
    destruct (Validation.pass_from _ _ _ _ c h1 [] coherent) as [c1 [h2 kept]].
    cbn [snd] in Hks. subst kept. destruct (_ && _); cbn [snd].
    + etrans; [apply sublist_submseteq, sublist_take|].
      unfold sorted_reverse. by rewrite sorted_by_perm.
    + by apply sublist_submseteq.
  - intros l. rewrite validate_store.
    destruct (pass_from_frame client chat model paper_title coherent c h1 [] l)
      as (-> & -> & -> & _).
    rewrite Hh1. unfold Topic.annotated.
    destruct (decide (l ∈ sections)); done.
Qed.

End WithServices.

End SummarizerFacts.

(** ** Where the sections of the detector come from *)

Module PieceFacts.
Import Py Re Text Extract Props Notions PyFacts ReFacts.

Lemma piece_of_refl x : piece_of x x.
Proof. exists [], []. by rewrite app_nil_r. Qed.

Lemma piece_of_trans x y z : piece_of x y -> piece_of y z -> piece_of x z.
Proof.
  intros (a & b & ->) (a' & b' & ->). exists (a' ++ a), (b ++ b').
  by rewrite <- !app_assoc.
Qed.

Lemma piece_of_nil x : piece_of [] x.
Proof. by exists [], x. Qed.

Lemma piece_of_take n x : piece_of (take n x) x.
Proof. exists [], (drop n x). by rewrite take_drop. Qed.

Lemma piece_of_drop n x : piece_of (drop n x) x.
Proof. exists (take n x), []. by rewrite app_nil_r, take_drop. Qed.

Lemma piece_of_slice a b x : piece_of (slice a b x) x.
Proof. unfold slice. eapply piece_of_trans; [apply piece_of_take|apply piece_of_drop]. Qed.

Lemma piece_of_lstrip x : piece_of (lstrip x) x.
Proof.
  induction x as [|c x IH]; [apply piece_of_nil|]. cbn [lstrip].
  destruct (is_space c); [|apply piece_of_refl].
  eapply piece_of_trans; [exact IH|]. exists [c], []. by rewrite app_nil_r.
Qed.

Lemma piece_of_rev x y : piece_of x y -> piece_of (rev x) (rev y).
Proof. intros (a & b & ->). exists (rev b), (rev a). by rewrite !rev_app_distr, app_assoc. Qed.

Lemma piece_of_strip x : piece_of (strip x) x.
Proof.
  unfold strip, rstrip. eapply piece_of_trans; [|apply piece_of_lstrip].
  rewrite <- (rev_involutive (lstrip x)) at 2. apply piece_of_rev, piece_of_lstrip.
Qed.

Lemma piece_of_group text i m : piece_of (group text i m) text.
Proof.
  unfold group. destruct (span_of i (m_caps m)) as [[a b]|];
    [apply piece_of_slice|apply piece_of_nil].
Qed.

Lemma primary_loop_pieces text ms :
  Forall (fun sec => piece_of (content sec) text) (primary_loop text ms).
Proof.
  induction ms as [|m later IH]; [constructor|]. cbn [primary_loop].
  apply Forall_app. split; [|exact IH].
  destruct (200 <? _); [|constructor]. repeat constructor. cbn [content new_section].
  eapply piece_of_trans; [apply piece_of_strip|apply piece_of_slice].
Qed.

(** X23.  The detector invents no text: before the sizes are checked, the
    content of every section, from the headers or from a fallback, stands
    in the text in one piece. *)
Theorem raw_sections_pieces text section_patterns :
  Forall (fun sec => piece_of (content sec) text) (raw_sections text section_patterns).
Proof.
  unfold raw_sections. destruct (length _ <? 2).
  - unfold fallback_tier.
    destruct (search true abstract_pattern text) as [am|],
             (search true intro_pattern text) as [im|];
      repeat constructor; cbn [content new_section];
      try apply piece_of_slice; try apply piece_of_drop;
      (eapply piece_of_trans; [apply piece_of_strip|apply piece_of_group]).
  - unfold primary_tier. destruct (2 <=? _); [apply primary_loop_pieces|constructor].
Qed.

End PieceFacts.
